(** * Shor factoring driver: number theory, circuit builder, gateway, orchestrator

    A shallow embedding of [src/main.py].  Python integers are [Z]; Python
    floats are IEEE-754 binary64 values, taken from the Standard Library's
    executable specification [SpecFloat] (precision 53, emax 1024); Python
    exceptions are the [Raise] outcome of a small error monad; the circuit
    object that the builder mutates is threaded through it as a state. *)

From Stdlib Require Import ZArith List Bool Lia Ascii SpecFloat Permutation.
Import ListNotations.
Local Open Scope Z_scope.

(** ** Outcomes of Python computations *)

Inductive exn : Type :=
| ZeroDivisionError
| ValueError
| OverflowError
| IndexError
| NameError
| BackendError.

(** [Ok v]: the call returned [v].  [Raise e]: it raised [e].  [Running]: a
    loop was still iterating when the iterations granted to it ran out. *)
Inductive outcome (A : Type) : Type :=
| Ok (a : A)
| Raise (e : exn)
| Running.

Arguments Ok {A} a.
Arguments Raise {A} e.
Arguments Running {A}.

Definition bind {A B : Type} (c : outcome A) (k : A -> outcome B) : outcome B :=
  match c with
  | Ok a => k a
  | Raise e => Raise e
  | Running => Running
  end.

Declare Scope py_scope.
Delimit Scope py_scope with py.
Notation "x <- c ;; k" := (bind c (fun x => k))
  (at level 61, c at next level, right associativity) : py_scope.
Local Open Scope py_scope.

(** [for x in xs: f x], collecting the values, stopping at the first raise. *)
Fixpoint mapM {A B : Type} (f : A -> outcome B) (xs : list A) : outcome (list B) :=
  match xs with
  | [] => Ok []
  | x :: rest =>
      y <- f x ;;
      ys <- mapM f rest ;;
      Ok (y :: ys)
  end.

(** ** Configuration (main.py:16-18) *)

Definition SHOTS : Z := 4096.
Definition MAX_QUBITS : Z := 128.
Definition MAX_PARALLEL_JOBS : nat := 8.

(** ** LargeNumberHandler.modular_exponentiation (main.py:21-31) *)

(** The [while exponent > 0] loop; one unit of [fuel] per iteration. *)
Fixpoint modexp_loop (fuel : nat) (result base exponent modulus : Z) : outcome Z :=
  if exponent >? 0 then
    match fuel with
    | O => Running
    | S fuel' =>
        let result' :=
          if exponent mod 2 =? 1 then (result * base) mod modulus else result in
        let base' := (base * base) mod modulus in
        modexp_loop fuel' result' base' (exponent / 2) modulus
    end
  else Ok result.

(** The loop halves [exponent] every turn, so its bit length bounds the
    number of turns. *)
Definition bit_fuel (exponent : Z) : nat := S (Z.to_nat (Z.log2 exponent)).

Definition modular_exponentiation (base exponent modulus : Z) : outcome Z :=
  if modulus =? 0 then Raise ZeroDivisionError   (* base % modulus *)
  else modexp_loop (bit_fuel exponent) 1 (base mod modulus) exponent modulus.

(** ** Python strings and sequences used by the circuit builder *)

Local Open Scope char_scope.

(** Binary digits of a positive integer, least significant first. *)
Fixpoint pos_bits (p : positive) : list ascii :=
  match p with
  | xH => ["1"]
  | xO q => "0" :: pos_bits q
  | xI q => "1" :: pos_bits q
  end.

(** Python's [bin]: sign, the prefix [0b], then the digits, most significant
    first. *)
Definition bin (z : Z) : list ascii :=
  match z with
  | Z0 => ["0"; "b"; "0"]
  | Zpos p => "0" :: "b" :: rev (pos_bits p)
  | Zneg p => "-" :: "0" :: "b" :: rev (pos_bits p)
  end.

(** Python's [str.zfill]: zeros on the left up to [width], after a leading
    sign if there is one. *)
Definition zfill (s : list ascii) (width : nat) : list ascii :=
  let zeros := repeat "0" (width - length s) in
  match s with
  | c :: rest =>
      if (Ascii.eqb c "+" || Ascii.eqb c "-")%bool then c :: zeros ++ rest
      else zeros ++ s
  | [] => zeros
  end.

(** Python's [enumerate]. *)
Definition enumerate {A : Type} (xs : list A) : list (nat * A) :=
  combine (seq 0 (length xs)) xs.

(** ** LargeNumberShorCircuit (main.py:55-82) *)

Inductive register : Type := control | target | ancilla.

(** A qubit is a position in one of the quantum registers. *)
Definition qubit : Type := (register * nat)%type.

Inductive gate : Type :=
| H (q : qubit)
| CX (c t : qubit)
| CCX (c1 c2 t : qubit).

(** A circuit object: its registers and the gates appended to it so far. *)
Record circuit : Type := mkCircuit {
  control_size : nat;
  target_size : nat;
  ancilla_size : nat;
  classical_size : nat;
  gates : list gate
}.

(** Qubits the circuit has: the three quantum registers together. *)
Definition num_qubits (c : circuit) : Z :=
  Z.of_nat (control_size c + target_size c + ancilla_size c).

(** Indexing a register, [reg[j]] with [j >= 0]: IndexError past the end. *)
Definition reg_get (r : register) (size j : nat) : outcome qubit :=
  if (j <? size)%nat then Ok (r, j) else Raise IndexError.

(** [list(control)]: the qubits of a register in order. *)
Definition reg_qubits (r : register) (size : nat) : list qubit :=
  map (fun j => (r, j)) (seq 0 size).

(** LargeNumberShorCircuit.__init__ (main.py:56-59). *)
Record LargeNumberShorCircuit : Type := mkShor {
  shor_N : Z;
  shor_n : nat;
  total_qubits : Z
}.

Definition LargeNumberShorCircuit_init (N : Z) : LargeNumberShorCircuit :=
  let n := (length (bin N) - 2)%nat in
  {| shor_N := N;
     shor_n := n;
     total_qubits := Z.min MAX_QUBITS (3 * Z.of_nat n + 2) |}.

(** ** Building a circuit in place

    [_build_circuit] mutates the circuit it is given.  A step takes the gate
    list of the circuit and gives it back with what it appended, next to its
    outcome; after an exception the gates appended before it are still in
    the list. *)
Definition build (A : Type) : Type := list gate -> list gate * outcome A.

Definition ret {A : Type} (a : A) : build A := fun gs => (gs, Ok a).

(** A computation that does not touch the circuit. *)
Definition lift {A : Type} (c : outcome A) : build A := fun gs => (gs, c).

(** [circuit.h], [circuit.cx], [circuit.ccx]: append one gate. *)
Definition emit (g : gate) : build unit := fun gs => (gs ++ [g], Ok tt).

Definition bind_build {A B : Type} (c : build A) (k : A -> build B) : build B :=
  fun gs =>
    let '(gs', r) := c gs in
    match r with
    | Ok a => k a gs'
    | Raise e => (gs', Raise e)
    | Running => (gs', Running)
    end.

Declare Scope build_scope.
Delimit Scope build_scope with build.
Notation "x <- c ;; k" := (bind_build c (fun x => k))
  (at level 61, c at next level, right associativity) : build_scope.
Notation "c ;; k" := (bind_build c (fun _ => k))
  (at level 61, right associativity) : build_scope.

(** [for x in xs: f x] on the circuit. *)
Fixpoint for_each {A : Type} (f : A -> build unit) (xs : list A) : build unit :=
  match xs with
  | [] => ret tt
  | x :: rest => (f x ;; for_each f rest)%build
  end.

(** Body of the second loop of [_build_circuit] for control qubit [i]
    (main.py:74-81). *)
Definition oracle_block (N : Z) (target_len ancilla_len : nat) (a : Z)
    (ic : nat * qubit) : build unit :=
  (let '(i, ctrl) := ic in
   let power := 2 ^ Z.of_nat i in
   result <- lift (modular_exponentiation a power N) ;;
   let binary := zfill (skipn 2 (bin result)) target_len in
   anc0 <- lift (reg_get ancilla ancilla_len 0) ;;
   emit (CX ctrl anc0) ;;
   for_each (fun jb : nat * ascii =>
               let '(j, bit) := jb in
               if Ascii.eqb bit "1" then
                 anc <- lift (reg_get ancilla ancilla_len 0) ;;
                 t <- lift (reg_get target target_len j) ;;
                 emit (CCX anc ctrl t)
               else ret tt)
            (enumerate (rev binary)) ;;
   anc0' <- lift (reg_get ancilla ancilla_len 0) ;;
   emit (CX ctrl anc0'))%build.

(** [_build_circuit] (main.py:70-82).  Its parameters are [circuit],
    [control], [target], [ancilla] and [a]; the last statement,
    [circuit.measure(control, classical)], names [classical], which is
    neither a parameter nor a local nor a global: evaluating it raises
    NameError. *)
Definition _build_circuit (self : LargeNumberShorCircuit)
    (control_len target_len ancilla_len : nat) (a : Z) : build unit :=
  (for_each (fun q => emit (H q)) (reg_qubits control control_len) ;;
   for_each (oracle_block (shor_N self) target_len ancilla_len a)
            (enumerate (reg_qubits control control_len)) ;;
   lift (Raise NameError))%build.

(** [create_quantum_circuits] (main.py:61-68): the circuit object as the
    call leaves it, and the outcome of the call; [return circuit] is reached
    only when [_build_circuit] returns. *)
Definition create_quantum_circuits (self : LargeNumberShorCircuit) (a : Z)
  : circuit * outcome circuit :=
  let control_len := (2 * shor_n self)%nat in
  let target_len := shor_n self in
  let ancilla_len := 2%nat in
  let classical_len := (2 * shor_n self)%nat in
  let '(gs, r) := _build_circuit self control_len target_len ancilla_len a [] in
  let c := mkCircuit control_len target_len ancilla_len classical_len gs in
  (c, _ <- r ;; Ok c).

Local Close Scope char_scope.

(** ** Python floats: IEEE-754 binary64 *)

Definition prec : Z := 53.
Definition emax : Z := 1024.

(** The literal [0.02]: the binary64 value nearest to 1/50. *)
Definition float_0_02 : spec_float := S754_finite false 5764607523034235 (-58).

(** Conversion of an [int] operand of a float operation: correctly rounded,
    OverflowError when the integer is too large for a float. *)
Definition float_of_int (z : Z) : outcome spec_float :=
  match binary_normalize prec emax z 0 false with
  | S754_infinity _ => Raise OverflowError
  | f => Ok f
  end.

(** [x * n] for a float [x] and an int [n]. *)
Definition float_mul_int (x : spec_float) (n : Z) : outcome spec_float :=
  y <- float_of_int n ;;
  Ok (SFmul prec emax x y).

(** [a / b] on ints: the quotient of the two integers rounded once, to
    nearest with ties to even; [SFdiv_core_binary] scales the dividend so
    that the integer quotient has enough bits and reports where the
    remainder lies, [binary_round_aux] rounds. *)
Definition int_truediv (a b : Z) : outcome spec_float :=
  if b =? 0 then Raise ZeroDivisionError
  else
    let sign := xorb (a <? 0) (b <? 0) in
    if a =? 0 then Ok (S754_zero sign)
    else
      let '(mz, ez, lz) := SFdiv_core_binary prec emax (Z.abs a) 0 (Z.abs b) 0 in
      match binary_round_aux prec emax sign mz ez lz with
      | S754_infinity _ => Raise OverflowError
      | f => Ok f
      end.

(** [n >= x] for an int [n] and a float [x]: Python compares the two exact
    values; every comparison with NaN is false. *)
Definition int_ge_float (n : Z) (x : spec_float) : bool :=
  match x with
  | S754_nan => false
  | S754_infinity s => s
  | S754_zero _ => 0 <=? n
  | S754_finite s m e =>
      let sm := if s then Z.neg m else Z.pos m in
      if 0 <=? e then sm * 2 ^ e <=? n
      else sm <=? n * 2 ^ (- e)
  end.

(** A [Fraction] in lowest terms with a positive denominator. *)
Definition Fraction : Type := (Z * Z)%type.
Definition numerator (f : Fraction) : Z := fst f.
Definition denominator (f : Fraction) : Z := snd f.

(** [Fraction(x)] for a float [x]: its exact value ([float.as_integer_ratio]). *)
Definition Fraction_of_float (x : spec_float) : outcome Fraction :=
  match x with
  | S754_nan => Raise ValueError
  | S754_infinity _ => Raise OverflowError
  | S754_zero _ => Ok (0, 1)
  | S754_finite s m e =>
      let sm := if s then Z.neg m else Z.pos m in
      if 0 <=? e then Ok (sm * 2 ^ e, 1)
      else
        let d := 2 ^ (- e) in
        let g := Z.gcd sm d in
        Ok (sm / g, d / g)
  end.

(** The [while True] loop of [Fraction.limit_denominator]; it leaves through
    [break] with the six loop variables. *)
Fixpoint limit_loop (fuel : nat) (p0 q0 p1 q1 n d max_denominator : Z)
  : outcome (Z * Z * Z * Z * Z * Z) :=
  if d =? 0 then Raise ZeroDivisionError   (* n // d *)
  else
    let a := n / d in
    let q2 := q0 + a * q1 in
    if q2 >? max_denominator then Ok (p0, q0, p1, q1, n, d)
    else
      match fuel with
      | O => Running
      | S fuel' =>
          limit_loop fuel' p1 q1 (p0 + a * p1) q2 d (n - a * d) max_denominator
      end.

(** [n, d] follow Euclid's algorithm, so the product of the two at least
    halves every turn after the first. *)
Definition limit_fuel (n d : Z) : nat := S (S (Z.to_nat (Z.log2 (n * d)))).

(** [Fraction.limit_denominator(max_denominator)], statement by statement
    from the standard library's [fractions.py]: the closest fraction with
    denominator at most [max_denominator], by continued fractions. *)
Definition limit_denominator (self : Fraction) (max_denominator : Z)
  : outcome Fraction :=
  if max_denominator <? 1 then Raise ValueError
  else if denominator self <=? max_denominator then Ok self
  else
    st <- limit_loop (limit_fuel (numerator self) (denominator self))
                     0 1 1 0 (numerator self) (denominator self)
                     max_denominator ;;
    let '(p0, q0, p1, q1, n, d) := st in
    if q1 =? 0 then Raise ZeroDivisionError   (* (max_denominator-q0)//q1 *)
    else
      let k := (max_denominator - q0) / q1 in
      if 2 * d * (q0 + k * q1) <=? denominator self then Ok (p1, q1)
      else Ok (p0 + k * p1, q0 + k * q1).

(** ** optimized_period_finding (main.py:84-90) *)

(** A measured bitstring, a key of the histogram: a string of '0' and '1',
    most significant bit first; [true] is '1'. *)
Definition bitstring : Type := list bool.

(** A counts histogram: the dict's items in insertion order.  The keys of a
    dict are distinct; no statement below depends on it. *)
Definition counts : Type := list (bitstring * Z).

(** [int(output, 2)]: ValueError on the empty string. *)
Definition int_base2 (output : bitstring) : outcome Z :=
  match output with
  | [] => Raise ValueError
  | _ => Ok (fold_left (fun acc (b : bool) => 2 * acc + (if b then 1 else 0)) output 0)
  end.

(** [sum(counts.values())]. *)
Definition total_shots (cs : counts) : Z :=
  fold_left Z.add (map snd cs) 0.

(** [threshold = 0.02 * total_shots]. *)
Definition threshold (cs : counts) : outcome spec_float :=
  float_mul_int float_0_02 (total_shots cs).

(** The outcomes that pass [count >= threshold]. *)
Definition surviving (thr : spec_float) (cs : counts) : counts :=
  filter (fun oc => int_ge_float (snd oc) thr) cs.

(** [int(output, 2) / (2 ** len(output))]. *)
Definition phase_of (output : bitstring) : outcome spec_float :=
  v <- int_base2 output ;;
  int_truediv v (2 ^ Z.of_nat (length output)).

Definition phases (cs : counts) : outcome (list spec_float) :=
  thr <- threshold cs ;;
  mapM (fun oc => phase_of (fst oc)) (surviving thr cs).

(** [Fraction(phase).limit_denominator(N).denominator]. *)
Definition candidate_of (N : Z) (phase : spec_float) : outcome Z :=
  f <- Fraction_of_float phase ;;
  g <- limit_denominator f N ;;
  Ok (denominator g).

Definition candidates (cs : counts) (N : Z) : outcome (list Z) :=
  ps <- phases cs ;;
  mapM (candidate_of N) ps.

(** The generator's filter: [r % 2 == 0 and 1 < r < N]. *)
Definition qualifies (N r : Z) : bool :=
  (r mod 2 =? 0) && ((1 <? r) && (r <? N)).

(** [min(..., default=None)]. *)
Fixpoint py_min (xs : list Z) : option Z :=
  match xs with
  | [] => None
  | x :: rest =>
      match py_min rest with
      | None => Some x
      | Some m => Some (if m <? x then m else x)
      end
  end.

Definition optimized_period_finding (cs : counts) (N : Z) : outcome (option Z) :=
  rs <- candidates cs N ;;
  Ok (py_min (filter (qualifies N) rs)).

(** ** OptimizedQuantumRings.execute_circuits (main.py:40-53) *)

(** What the gateway does to the outside world, in order. *)
Inductive event : Type :=
| Submit (attempt : nat)     (* backend.run, job_monitor, get_counts *)
| Sleep (seconds : Z).       (* time.sleep *)

(** One submission of a circuit: the backend hands back a histogram or
    raises.  [exn] lists subclasses of [Exception] only, which is what
    [except Exception] catches. *)
Definition submission : Type := nat -> outcome counts.

(** The [for attempt in range(max_retries)] loop of [execute_with_retry]. *)
Fixpoint retry_loop (run : submission) (attempts : list nat)
  : list event * outcome counts :=
  match attempts with
  | [] => ([], Ok [])                                  (* return {} *)
  | attempt :: rest =>
      match run attempt with
      | Ok c => ([Submit attempt], Ok c)
      | Raise _ =>
          let '(t, r) := retry_loop run rest in
          (Submit attempt :: Sleep (2 ^ Z.of_nat attempt) :: t, r)
      | Running => ([Submit attempt], Running)
      end
  end.

Definition execute_with_retry (run : submission) (max_retries : nat)
  : list event * outcome counts :=
  retry_loop run (seq 0 max_retries).

Definition default_max_retries : nat := 3.

(** The backend seen by one batch: job number, circuit, attempt. *)
Definition backend : Type := nat -> circuit -> submission.

(** [execute_circuits]: every circuit goes through [execute_with_retry] on
    its own; the results come back in the order of the circuits. *)
Definition execute_circuits (be : backend) (circuits : list circuit)
  : list (list event) * outcome (list counts) :=
  let jobs := map (fun ic => execute_with_retry (be (fst ic) (snd ic))
                                                default_max_retries)
                  (enumerate circuits) in
  (map fst jobs, mapM snd jobs).

(** Seconds slept and submissions made in a trace. *)
Fixpoint total_sleep (t : list event) : Z :=
  match t with
  | [] => 0
  | Sleep s :: rest => s + total_sleep rest
  | Submit _ :: rest => total_sleep rest
  end.

Fixpoint submissions (t : list event) : nat :=
  match t with
  | [] => O
  | Submit _ :: rest => S (submissions rest)
  | Sleep _ :: rest => submissions rest
  end.

(** ** run_shors_algorithm (main.py:92-115) *)

(** [1 < factor < N]. *)
Definition nontrivial (N factor : Z) : bool :=
  (1 <? factor) && (factor <? N).

(** The classical loop (main.py:99-102): the first base whose gcd with N is
    a proper factor ends the run. *)
Fixpoint classical_check (N : Z) (bases : list Z) : option (Z * Z) :=
  match bases with
  | [] => None
  | a :: rest =>
      let factor := Z.gcd a N in
      if nontrivial N factor then Some (factor, N / factor)
      else classical_check N rest
  end.

(** The loop over [(gcd(x-1, N), gcd(x+1, N))] (main.py:111-113). *)
Fixpoint factor_scan (N : Z) (factors : list Z) : option (Z * Z) :=
  match factors with
  | [] => None
  | factor :: rest =>
      if nontrivial N factor then Some (factor, N / factor)
      else factor_scan N rest
  end.

(** The loop over [zip(bases, results)] (main.py:105-113). *)
Fixpoint period_phase (N : Z) (pairs : list (Z * counts))
  : outcome (option (Z * Z)) :=
  match pairs with
  | [] => Ok None
  | (a, cs) :: rest =>
      match cs with
      | [] => period_phase N rest                      (* if not counts: continue *)
      | _ :: _ =>
          period <- optimized_period_finding cs N ;;
          match period with
          | Some r =>
              if negb (r =? 0) && (r mod 2 =? 0) then
                x <- modular_exponentiation a (r / 2) N ;;
                match factor_scan N [Z.gcd (x - 1) N; Z.gcd (x + 1) N] with
                | Some pq => Ok (Some pq)
                | None => period_phase N rest
                end
              else period_phase N rest
          | None => period_phase N rest
          end
      end
  end.

(** What one round does outside the process. *)
Inductive round_event : Type :=
| Built (a : Z)                          (* create_quantum_circuits(a) called *)
| Dispatched (jobs : list (list event)). (* execute_circuits called *)

(** The list comprehension of main.py:103. *)
Fixpoint build_all (gen : LargeNumberShorCircuit) (bases : list Z)
  : list round_event * outcome (list circuit) :=
  match bases with
  | [] => ([], Ok [])
  | a :: rest =>
      match snd (create_quantum_circuits gen a) with
      | Ok c =>
          let '(t, r) := build_all gen rest in
          (Built a :: t, cs <- r ;; Ok (c :: cs))
      | Raise e => ([Built a], Raise e)
      | Running => ([Built a], Running)
      end
  end.

(** What the random source and the backend give one round: the bases that
    the MAX_PARALLEL_JOBS calls of [np.random.randint(2, min(N, 2**32))]
    drew, and the backend's behaviour. *)
Record round_env : Type := mkRound {
  drawn : list Z;
  service : backend
}.

(** One pass through the body of [try] (main.py:98-113).  [Ok (Some pq)] is
    a [return]; [Ok None] is falling off the end of the body. *)
Definition round (N : Z) (gen : LargeNumberShorCircuit) (env : round_env)
  : list round_event * outcome (option (Z * Z)) :=
  if 2 <? Z.min N (2 ^ 32) then
    let bases := drawn env in
    match classical_check N bases with
    | Some pq => ([], Ok (Some pq))
    | None =>
        let '(tb, built) := build_all gen bases in
        match built with
        | Ok circuits =>
            let '(jobs, results) := execute_circuits (service env) circuits in
            (tb ++ [Dispatched jobs],
             rs <- results ;; period_phase N (combine bases rs))
        | Raise e => (tb, Raise e)
        | Running => (tb, Running)
        end
    end
  else ([], Raise ValueError).            (* randint: low >= high *)

(** The [while True] loop, one element of [envs] per round; the elapsed time
    returned next to the pair is left out. *)
Fixpoint shor_loop (N : Z) (gen : LargeNumberShorCircuit) (envs : list round_env)
  : list (list round_event) * outcome (Z * Z) :=
  match envs with
  | [] => ([], Running)
  | env :: rest =>
      let '(t, r) := round N gen env in
      match r with
      | Ok (Some pq) => ([t], Ok pq)
      | Ok None | Raise _ =>                           (* except Exception: pass *)
          let '(ts, r') := shor_loop N gen rest in
          (t :: ts, r')
      | Running => ([t], Running)
      end
  end.

Definition run_shors_algorithm (N : Z) (envs : list round_env)
  : list (list round_event) * outcome (Z * Z) :=
  shor_loop N (LargeNumberShorCircuit_init N) envs.

(** ** Predicates and sample inputs used by the statements *)

(** [(p, q)] is a pair of proper factors of [N]. *)
Definition factor_pair (N : Z) (pq : Z * Z) : Prop :=
  fst pq * snd pq = N /\ 1 < fst pq < N /\ 1 < snd pq < N.

(** A backend that measures the same outcome on every shot. *)
Definition constant_backend (cs : counts) : backend := fun _ _ _ => Ok cs.
Definition failing_backend : backend := fun _ _ _ => Raise BackendError.

(** The bitstring 0010101011 (171/1024, close to 1/6). *)
Definition sixth_bits : bitstring :=
  [false; false; true; false; true; false; true; false; true; true].

(** A round that ends without a [return]: it falls off the end of the body
    or raises into [except Exception: pass]. *)
Definition unproductive (N : Z) (gen : LargeNumberShorCircuit) (env : round_env)
  : Prop :=
  snd (round N gen env) = Ok None \/ exists x, snd (round N gen env) = Raise x.

(** A backend whose every reply is an empty histogram or a failure. *)
Definition yields_nothing (be : backend) : Prop :=
  forall i c k, be i c k = Ok [] \/ exists e, be i c k = Raise e.

(** What a round without a lucky gcd and without measurements does. *)
Definition barren (N : Z) (env : round_env) : Prop :=
  Forall (fun a => ~ 1 < Z.gcd a N < N) (drawn env) /\ yields_nothing (service env).

(** A float that is neither an infinity nor a NaN, with sign [s]. *)
Definition finite_with_sign (s : bool) (x : spec_float) : Prop :=
  x = S754_zero s \/ exists m e, x = S754_finite s m e.

(** The value [min] returns over the qualifying candidates [rs]. *)
Definition least_qualifying (N : Z) (rs : list Z) (res : option Z) : Prop :=
  match res with
  | Some r =>
      In r rs /\ r mod 2 = 0 /\ 1 < r < N /\
      forall r', In r' rs -> r' mod 2 = 0 -> 1 < r' < N -> r <= r'
  | None => forall r', In r' rs -> ~ (r' mod 2 = 0 /\ 1 < r' < N)
  end.

(** Eight measured bits with a single '1' at position [k] from the left. *)
Definition one_hot (k : nat) : bitstring :=
  repeat false k ++ true :: repeat false (7 - k).



(** ** The gates of a circuit in closed form *)

(** The value baked into the oracle for control qubit [i]. *)
Definition residue (N a : Z) (i : nat) : Z := a ^ 2 ^ Z.of_nat i mod N.

(** One doubly controlled flip per set bit of [r] among the low [n] bits. *)
Definition flip_gates (n : nat) (ctrl : qubit) (r : Z) : list gate :=
  flat_map (fun j => if Z.testbit r (Z.of_nat j)
                     then [CCX (ancilla, 0%nat) ctrl (target, j)] else [])
           (seq 0 n).

Definition block_gates (N : Z) (n : nat) (a : Z) (i : nat) : list gate :=
  CX (control, i) (ancilla, 0%nat)
  :: flip_gates n (control, i) (residue N a i)
  ++ [CX (control, i) (ancilla, 0%nat)].

Definition appended_gates (N : Z) (n : nat) (a : Z) : list gate :=
  map H (reg_qubits control (2 * n))
  ++ flat_map (block_gates N n a) (seq 0 (2 * n)).

(** A qubit that exists in the circuit's registers. *)
Definition qubit_in_range (c : circuit) (q : qubit) : Prop :=
  match fst q with
  | control => (snd q < control_size c)%nat
  | target => (snd q < target_size c)%nat
  | ancilla => (snd q < ancilla_size c)%nat
  end.

(** A gate whose operands exist. *)
Definition gate_in_range (c : circuit) (g : gate) : Prop :=
  match g with
  | H q => qubit_in_range c q
  | CX q t => qubit_in_range c q /\ qubit_in_range c t
  | CCX q1 q2 t => qubit_in_range c q1 /\ qubit_in_range c q2 /\ qubit_in_range c t
  end.

(** ** Counting failed attempts *)

(** How many of the attempts, taken in order, fail before the first one
    that does not. *)
Fixpoint leading_failures (run : submission) (attempts : list nat) : nat :=
  match attempts with
  | [] => O
  | attempt :: rest =>
      match run attempt with
      | Raise _ => S (leading_failures run rest)
      | _ => O
      end
  end.

(** A submission that fails [failures] times and then hands back [cs]. *)
Definition flaky_submission (failures : nat) (cs : counts) : submission :=
  fun k => if (k <? failures)%nat then Raise BackendError else Ok cs.

(** ** main (main.py:117-140) *)

(** A Python string: its code points.  ["0"] is the one-character string
    with code point 48. *)
Definition pystr : Type := list N.
Definition zero_line : pystr := [48%N].

Definition pystr_eqb (s t : pystr) : bool :=
  if list_eq_dec N.eq_dec s t then true else false.

(** What [input] gives: a line, or an exception such as EOFError. *)
Inductive read : Type :=
| Line (s : pystr)
| InputError.

(** What one call of [run_shors_algorithm] meets: the outcome of
    [OptimizedQuantumRings()], which opens the provider session, and the
    rounds of its loop. *)
Record call_env : Type := mkCall {
  session : outcome unit;
  rounds : list round_env
}.

(** A call of [run_shors_algorithm(N)], constructor included. *)
Definition call_run (N : Z) (env : call_env) : outcome (Z * Z) :=
  _ <- session env ;;
  snd (run_shors_algorithm N (rounds env)).

(** What [main] does, in order. *)
Inductive main_event : Type :=
| Prompt                       (* input("Enter a number to factor ...") *)
| SayInvalid                   (* "Invalid input. Enter a positive integer." *)
| SayTooSmall                  (* "Enter a number greater than 3" *)
| SayFactoring                 (* "Factoring... This may take time." *)
| Invoked (N : Z)              (* run_shors_algorithm(N) *)
| SayFactors (p q N : Z)       (* "Factors found: ..." *)
| SayRetrying                  (* "Retrying..." *)
| SayExecutionTime             (* "Execution time: ..." *)
| SayError.                    (* "Error: ..." *)

(** The inner [while True] of [main]: one element of [calls] per call of
    [run_shors_algorithm]; the calls not used are handed back. *)
Fixpoint factor_loop (N : Z) (calls : list call_env)
  : list main_event * outcome unit * list call_env :=
  match calls with
  | [] => ([], Running, [])
  | env :: rest =>
      match call_run N env with
      | Ok (p, q) =>
          if negb (p =? 0) && negb (q =? 0) then       (* if p and q *)
            ([Invoked N; SayFactors p q N], Ok tt, rest)
          else
            let '(evs, r, rest') := factor_loop N rest in
            (Invoked N :: SayRetrying :: evs, r, rest')
      | Raise e => ([Invoked N], Raise e, rest)
      | Running => ([Invoked N], Running, rest)
      end
  end.

Section Main.

(** The builtins [str.isdigit] and [int], which depend on the Unicode
    tables and on the interpreter's limit on digits. *)
Variable isdigit : pystr -> bool.
Variable int_of_str : pystr -> outcome Z.

(** The outer [while True] of [main], one element of [lines] per call of
    [input]. *)
Fixpoint main_loop (lines : list read) (calls : list call_env)
  : list main_event * outcome unit :=
  match lines with
  | [] => ([Prompt], Running)
  | InputError :: more =>
      let '(evs, r) := main_loop more calls in
      (Prompt :: SayError :: evs, r)
  | Line number_str :: more =>
      if pystr_eqb number_str zero_line then ([Prompt], Ok tt)         (* break *)
      else if negb (isdigit number_str) then
        let '(evs, r) := main_loop more calls in
        (Prompt :: SayInvalid :: evs, r)
      else
        match int_of_str number_str with
        | Ok N =>
            if N <? 4 then
              let '(evs, r) := main_loop more calls in
              (Prompt :: SayTooSmall :: evs, r)
            else
              let '(fevs, fr, calls') := factor_loop N calls in
              match fr with
              | Ok _ =>
                  let '(evs, r) := main_loop more calls' in
                  (Prompt :: SayFactoring :: fevs ++ SayExecutionTime :: evs, r)
              | Raise _ =>
                  let '(evs, r) := main_loop more calls' in
                  (Prompt :: SayFactoring :: fevs ++ SayError :: evs, r)
              | Running => (Prompt :: SayFactoring :: fevs, Running)
              end
        | Raise _ =>
            let '(evs, r) := main_loop more calls in
            (Prompt :: SayError :: evs, r)
        | Running => ([Prompt], Running)
        end
  end.

Definition main (lines : list read) (calls : list call_env)
  : list main_event * outcome unit :=
  main_loop lines calls.

End Main.

(** [str.isdigit] on a string of ASCII characters, and [int] on a string
    that passed it (the only strings [main] gives to [int]). *)
Definition ascii_isdigit (s : pystr) : bool :=
  match s with
  | [] => false
  | _ => forallb (fun c => (48 <=? c)%N && (c <=? 57)%N) s
  end.

Definition ascii_int (s : pystr) : outcome Z :=
  if ascii_isdigit s
  then Ok (fold_left (fun acc c => 10 * acc + (Z.of_N c - 48)) s 0)
  else Raise ValueError.

(** The code points of a decimal numeral, most significant digit first. *)
Definition digits_line (ds : list Z) : pystr := map (fun d => Z.to_N (d + 48)) ds.

(** What can appear in the trace of [main], and why. *)
Definition justified (isdigit : pystr -> bool) (int_of_str : pystr -> outcome Z)
    (lines : list read) (ev : main_event) : Prop :=
  match ev with
  | Invoked N =>
      4 <= N /\
      exists s, In (Line s) lines /\ s <> zero_line /\
                isdigit s = true /\ int_of_str s = Ok N
  | SayFactors p q N => 4 <= N /\ p * q = N /\ 1 < p < N /\ 1 < q < N
  | SayRetrying => False
  | _ => True
  end.

(** A session: a line that is no number, the number 21, then "0"; the one
    call of [run_shors_algorithm] draws no base with a proper gcd in its
    first round and the base 14 in its second. *)
Definition sample_lines : list read :=
  [Line [97%N; 98%N]; Line (digits_line [2; 1]); Line zero_line; Line (digits_line [1; 5])].
Definition sample_calls : list call_env :=
  [mkCall (Ok tt)
          [mkRound [2; 5; 8; 10; 11; 13; 16; 20] failing_backend;
           mkRound [4; 19; 14; 3; 17; 6; 2; 12] failing_backend]].

(** A session in which [input] fails once and the provider session cannot
    be opened. *)
Definition failing_lines : list read :=
  [InputError; Line (digits_line [2; 1]); Line zero_line].
Definition failing_calls : list call_env :=
  [mkCall (Raise BackendError) []].

(** N has no divisor strictly between 1 and N (a prime, for N >= 2). *)
Definition no_proper_divisor (N : Z) : Prop :=
  forall d, 1 < d < N -> ~ (d | N).
(** ** Facts about modular exponentiation *)

Section ModExp.

Variable modulus : Z.
Hypothesis modulus_pos : 0 < modulus.

Lemma modexp_loop_spec :
  forall fuel result base exponent,
    0 <= exponent < 2 ^ Z.of_nat fuel ->
    0 <= result < modulus ->
    modexp_loop fuel result base exponent modulus
    = Ok ((result * base ^ exponent) mod modulus).
Proof.
  induction fuel as [|fuel IH]; intros result base exponent He Hr.
  - assert (exponent = 0) by (simpl in He; lia). subst exponent.
    simpl. rewrite Z.mul_1_r, Z.mod_small by lia. reflexivity.
  - cbn [modexp_loop].
    destruct (Z.gtb_spec exponent 0) as [Hpos | Hzero].
    + assert (Hdiv : 0 <= exponent / 2 < 2 ^ Z.of_nat fuel).
      { split; [apply Z.div_pos; lia|].
        apply Z.div_lt_upper_bound; [lia|].
        rewrite Nat2Z.inj_succ, Z.pow_succ_r in He by lia. lia. }
      assert (Hsplit : exponent = 2 * (exponent / 2) + exponent mod 2)
        by (apply Z.div_mod; lia).
      assert (Hbit : 0 <= exponent mod 2 < 2) by (apply Z.mod_pos_bound; lia).
      assert (Hsq : forall k, 0 <= k ->
                 ((base * base) mod modulus) ^ k mod modulus
                 = base ^ (2 * k) mod modulus).
      { intros k Hk.
        rewrite Z.mod_pow_l.
        rewrite Z.pow_mul_r by lia. f_equal. f_equal. ring. }
      assert (Hpow : base ^ exponent
                     = base ^ (exponent mod 2) * base ^ (2 * (exponent / 2))).
      { rewrite <- Z.pow_add_r by lia. f_equal. lia. }
      rewrite Hpow.
      destruct (Z.eqb_spec (exponent mod 2) 1) as [Hodd | Heven].
      * rewrite IH; [| exact Hdiv | apply Z.mod_pos_bound; lia].
        f_equal. rewrite Hodd, Z.pow_1_r.
        rewrite Z.mul_mod, Z.mod_mod, Hsq by lia.
        rewrite <- Z.mul_mod by lia.
        f_equal. ring.
      * rewrite IH; [| exact Hdiv | exact Hr].
        f_equal. replace (exponent mod 2) with 0 by lia.
        rewrite Z.pow_0_r, Z.mul_1_l.
        rewrite Z.mul_mod, Hsq by lia.
        rewrite <- Z.mul_mod by lia. reflexivity.
    + assert (exponent = 0) by lia. subst exponent.
      rewrite Z.pow_0_r, Z.mul_1_r, Z.mod_small by lia. reflexivity.
Qed.

End ModExp.

(** The loop ends within the bit length of the exponent, whatever the
    modulus. *)
Lemma modexp_loop_terminates (modulus : Z) :
  forall fuel result base exponent,
    exponent < 2 ^ Z.of_nat fuel ->
    modexp_loop fuel result base exponent modulus <> Running.
Proof.
  induction fuel as [|fuel IH]; intros result base exponent He; cbn [modexp_loop];
    destruct (Z.gtb_spec exponent 0) as [Hpos | Hzero]; try discriminate.
  - change (2 ^ Z.of_nat 0) with 1 in He. lia.
  - apply IH. apply Z.div_lt_upper_bound; [lia|].
    rewrite Nat2Z.inj_succ, Z.pow_succ_r in He by lia. lia.
Qed.

Lemma bit_fuel_enough (exponent : Z) :
  0 <= exponent -> exponent < 2 ^ Z.of_nat (bit_fuel exponent).
Proof.
  intros He. unfold bit_fuel.
  rewrite Nat2Z.inj_succ, Z2Nat.id by apply Z.log2_nonneg.
  destruct (Z.eq_dec exponent 0) as [-> | Hne]; [reflexivity|].
  apply Z.log2_spec. lia.
Qed.

Lemma modular_exponentiation_terminates (base exponent modulus : Z) :
  modular_exponentiation base exponent modulus <> Running.
Proof.
  unfold modular_exponentiation.
  destruct (modulus =? 0); [discriminate|].
  apply modexp_loop_terminates.
  destruct (Z.le_gt_cases 0 exponent) as [He | He]; [apply bit_fuel_enough; exact He|].
  pose proof (Z.pow_pos_nonneg 2 (Z.of_nat (bit_fuel exponent)) ltac:(lia) ltac:(lia)).
  lia.
Qed.

Lemma modular_exponentiation_spec (base exponent modulus : Z) :
  2 <= modulus -> 0 <= exponent ->
  modular_exponentiation base exponent modulus = Ok (base ^ exponent mod modulus).
Proof.
  intros Hm He. unfold modular_exponentiation.
  destruct (Z.eqb_spec modulus 0); [lia|].
  rewrite modexp_loop_spec; try lia.
  - f_equal. rewrite Z.mul_1_l. apply Z.mod_pow_l.
  - split; [lia | apply bit_fuel_enough; lia].
Qed.

(** C4: for every modulus N >= 4, base b >= 2 and exponent e >= 0,
    [modular_exponentiation b e N] returns [b ^ e mod N], the value of the
    exact unbounded-integer power followed by the remainder; [Z] has no word
    size, so operands of hundreds of bits are covered. *)
Theorem C4_modexp_matches_reference (b e N : Z) :
  4 <= N -> 2 <= b -> 0 <= e ->
  modular_exponentiation b e N = Ok (b ^ e mod N).
Proof.
  intros HN _ He. apply modular_exponentiation_spec; lia.
Qed.

Lemma C4_modexp_matches_reference_witness :
  modular_exponentiation 7 (2 ^ 300 + 5) (2 ^ 256 + 297)
  = Ok (7 ^ (2 ^ 300 + 5) mod (2 ^ 256 + 297)).
Proof.
  apply (C4_modexp_matches_reference 7 (2 ^ 300 + 5) (2 ^ 256 + 297));
    [ vm_compute; discriminate | lia | vm_compute; discriminate ].
Defined.

(** C10: with exponent 0 the loop body never runs and the initial
    [result = 1] is returned unreduced, for every base and every modulus
    m >= 1; at m = 1 the answer is 1 although [b ^ 0 mod 1 = 0]. *)
Theorem C10_modexp_exponent_zero (b m : Z) :
  1 <= m ->
  modular_exponentiation b 0 m = Ok 1 /\
  modular_exponentiation b 0 1 = Ok 1 /\
  b ^ 0 mod 1 = 0.
Proof.
  intros Hm. unfold modular_exponentiation.
  destruct (Z.eqb_spec m 0); [lia|].
  repeat split.
Qed.

Lemma C10_modexp_exponent_zero_witness :
  modular_exponentiation 5 0 1 = Ok 1 /\
  modular_exponentiation 5 0 1 = Ok 1 /\
  5 ^ 0 mod 1 = 0.
Proof.
  apply (C10_modexp_exponent_zero 5 1). lia.
Defined.


(** ** Facts about the error monad *)

Lemma mapM_ok {A B : Type} (f : A -> outcome B) (xs : list A) :
  (forall x, In x xs -> exists y, f x = Ok y) ->
  exists ys, mapM f xs = Ok ys /\ length ys = length xs.
Proof.
  induction xs as [|x rest IH]; intros Hall.
  - exists []. split; reflexivity.
  - destruct (Hall x (or_introl eq_refl)) as [y Hy].
    destruct IH as [ys [Hys Hlen]].
    { intros z Hz. apply Hall. right. exact Hz. }
    exists (y :: ys). cbn [mapM]. rewrite Hy. cbn [bind]. rewrite Hys.
    split; [reflexivity | simpl; congruence].
Qed.

Lemma mapM_Forall2 {A B : Type} (f : A -> outcome B) (xs : list A) (ys : list B) :
  mapM f xs = Ok ys -> Forall2 (fun x y => f x = Ok y) xs ys.
Proof.
  revert ys. induction xs as [|x rest IH]; intros ys; cbn [mapM].
  - intros [= <-]. constructor.
  - destruct (f x) as [y| |] eqn:Hx; cbn [bind]; try discriminate.
    destruct (mapM f rest) as [ys'| |]; cbn [bind]; try discriminate.
    intros [= <-]. constructor; [exact Hx | apply IH; reflexivity].
Qed.

Lemma mapM_const {A B : Type} (f : A -> outcome B) (y : B) (xs : list A) :
  (forall x, In x xs -> f x = Ok y) -> mapM f xs = Ok (map (fun _ => y) xs).
Proof.
  induction xs as [|x rest IH]; intros Hall; [reflexivity|].
  cbn [mapM map]. rewrite (Hall x (or_introl eq_refl)). cbn [bind].
  rewrite IH by (intros z Hz; apply Hall; right; exact Hz). reflexivity.
Qed.

Lemma mapM_no_raise {A B : Type} (f : A -> outcome B) (xs : list A) (e : exn) :
  (forall x, In x xs -> f x <> Raise e) -> mapM f xs <> Raise e.
Proof.
  induction xs as [|x rest IH]; intros Hall; cbn [mapM]; [discriminate|].
  pose proof (Hall x (or_introl eq_refl)) as Hx.
  destruct (f x) as [y|e'|]; cbn [bind]; [| congruence | discriminate].
  assert (Hrest : mapM f rest <> Raise e)
    by (apply IH; intros z Hz; apply Hall; right; exact Hz).
  destruct (mapM f rest); cbn [bind]; congruence.
Qed.

Lemma nth_error_combine_seq {A : Type} (l : list A) :
  forall s i x,
    nth_error l i = Some x ->
    nth_error (combine (seq s (length l)) l) i = Some ((s + i)%nat, x).
Proof.
  induction l as [|y rest IH]; intros s [|i] x Hi; cbn in *; try discriminate.
  - injection Hi as <-. rewrite Nat.add_0_r. reflexivity.
  - rewrite (IH (S s) i x Hi). f_equal. f_equal. lia.
Qed.

Lemma Forall2_nth_error_l {A B : Type} (P : A -> B -> Prop) (l : list A) (l' : list B) :
  Forall2 P l l' ->
  forall i a, nth_error l i = Some a -> exists b, nth_error l' i = Some b /\ P a b.
Proof.
  induction 1 as [|a0 b0 l l' Hab _ IH]; intros [|i] a Hi; cbn in *; try discriminate.
  - injection Hi as <-. exists b0. split; [reflexivity | exact Hab].
  - apply IH. exact Hi.
Qed.

Lemma length_enumerate {A : Type} (xs : list A) :
  length (enumerate xs) = length xs.
Proof.
  unfold enumerate. rewrite length_combine, length_seq. apply Nat.min_id.
Qed.

Lemma map_const_same_length {A A' B : Type} (y : B) (l : list A) :
  forall l' : list A',
    length l = length l' -> map (fun _ => y) l = map (fun _ => y) l'.
Proof.
  induction l as [|x l IH]; intros [|x' l'] Hlen; cbn in *; try discriminate.
  - reflexivity.
  - f_equal. apply IH. lia.
Qed.

(** ** Facts about the circuit builder *)

Lemma length_pos_bits (p : positive) : length (pos_bits p) = Pos.size_nat p.
Proof. induction p; simpl; congruence. Qed.

(** The digits of a residue modulo N fit in the bit length of N. *)
Lemma length_digits_residue (N r : Z) :
  1 <= N -> 0 <= r < N ->
  (length (skipn 2 (bin r)) <= length (bin N) - 2)%nat.
Proof.
  intros HN Hr.
  destruct N as [|q|q]; try lia.
  destruct r as [|p|p]; try lia; simpl.
  - rewrite length_rev, length_pos_bits. destruct q; simpl; lia.
  - rewrite !length_rev, !length_pos_bits.
    rewrite Nat.sub_0_r.
    apply Pos.size_nat_monotone. lia.
Qed.

Lemma reg_get_ok (r : register) (size j : nat) :
  (j < size)%nat -> reg_get r size j = Ok (r, j).
Proof.
  intros Hlt. unfold reg_get.
  destruct (Nat.ltb_spec j size); [reflexivity | lia].
Qed.

Lemma combine_map_same {A B : Type} (h : A -> B) (l : list A) :
  combine l (map h l) = map (fun x => (x, h x)) l.
Proof. induction l as [|x l IH]; [reflexivity | cbn; rewrite IH; reflexivity]. Qed.

Lemma enumerate_map_seq {B : Type} (h : nat -> B) (n : nat) :
  enumerate (map h (seq 0 n)) = map (fun j => (j, h j)) (seq 0 n).
Proof.
  unfold enumerate. rewrite length_map, length_seq. apply combine_map_same.
Qed.

Local Open Scope char_scope.

(** Digit [j] of [pos_bits], also past the last one. *)
Lemma nth_pos_bits (p : positive) :
  forall j, nth j (pos_bits p) "0"
            = if Z.testbit (Z.pos p) (Z.of_nat j) then "1" else "0".
Proof.
  induction p as [p IH | p IH |]; intros [|j]; cbn [pos_bits nth].
  - reflexivity.
  - rewrite IH, Nat2Z.inj_succ.
    change (Z.pos p~1) with (2 * Z.pos p + 1).
    rewrite Z.testbit_odd_succ by lia. reflexivity.
  - reflexivity.
  - rewrite IH, Nat2Z.inj_succ.
    change (Z.pos p~0) with (2 * Z.pos p).
    rewrite Z.testbit_even_succ by lia. reflexivity.
  - reflexivity.
  - rewrite Nat2Z.inj_succ. change 1 with (2 * 0 + 1).
    rewrite Z.testbit_odd_succ, Z.testbit_0_l by lia. destruct j; reflexivity.
Qed.

Lemma rev_pos_bits_head (p : positive) :
  exists rest, rev (pos_bits p) = "1" :: rest.
Proof.
  induction p as [p [rest IH] | p [rest IH] |]; cbn [pos_bits rev].
  - rewrite IH. eexists; reflexivity.
  - rewrite IH. eexists; reflexivity.
  - eexists; reflexivity.
Qed.

Lemma rev_repeat {A : Type} (x : A) (n : nat) : rev (repeat x n) = repeat x n.
Proof.
  induction n as [|n IH]; [reflexivity|].
  cbn [repeat rev]. rewrite IH. symmetry. apply repeat_cons.
Qed.

Lemma nth_map_seq {B : Type} (h : nat -> B) (n j : nat) (d : B) :
  (j < n)%nat -> nth j (map h (seq 0 n)) d = h j.
Proof.
  intros Hj.
  rewrite (nth_indep _ d (h 0%nat)) by (rewrite length_map, length_seq; lia).
  rewrite map_nth, seq_nth by lia. reflexivity.
Qed.

(** [reversed(bin(r)[2:].zfill(n))]: the low [n] bits of [r], least
    significant first. *)
Lemma reversed_binary (N r : Z) :
  2 <= N -> 0 <= r < N ->
  rev (zfill (skipn 2 (bin r)) (length (bin N) - 2))
  = map (fun j => if Z.testbit r (Z.of_nat j) then "1" else "0")
        (seq 0 (length (bin N) - 2)).
Proof.
  intros HN Hr.
  pose proof (length_digits_residue N r ltac:(lia) Hr) as Hfit.
  set (n := (length (bin N) - 2)%nat) in *.
  assert (Hdigits : exists l c rest,
             skipn 2 (bin r) = rev l /\ rev l = c :: rest /\
             (c = "0" \/ c = "1") /\
             forall j, nth j l "0"
                       = if Z.testbit r (Z.of_nat j) then "1" else "0").
  { destruct r as [|p|p]; [| | lia].
    - exists ["0"], "0", []. repeat split; [left; reflexivity|].
      intros j. rewrite Z.testbit_0_l. destruct j as [|[|j]]; reflexivity.
    - destruct (rev_pos_bits_head p) as [rest Hrest].
      exists (pos_bits p), "1", rest.
      repeat split; [exact Hrest | right; reflexivity | apply nth_pos_bits]. }
  destruct Hdigits as [l [c [rest [Hl [Hhead [Hc Hnth]]]]]].
  rewrite Hl, length_rev in Hfit.
  assert (Hfill : zfill (rev l) n = repeat "0" (n - length l) ++ rev l).
  { unfold zfill. rewrite length_rev, Hhead.
    destruct Hc as [-> | ->]; reflexivity. }
  rewrite Hl, Hfill, rev_app_distr, rev_involutive, rev_repeat.
  apply (nth_ext _ _ "0" "0").
  - rewrite length_app, repeat_length, length_map, length_seq. lia.
  - intros j Hj.
    rewrite length_app, repeat_length in Hj.
    rewrite nth_map_seq by lia. rewrite <- Hnth.
    destruct (Nat.lt_ge_cases j (length l)) as [Hin | Hout].
    + apply app_nth1. exact Hin.
    + rewrite app_nth2, nth_repeat by exact Hout.
      symmetry. apply nth_overflow. exact Hout.
Qed.

(** A loop whose body only appends gates appends them all, in order. *)
Lemma for_each_emits {A : Type} (f : A -> build unit) (g : A -> list gate)
    (xs : list A) :
  (forall x gs, In x xs -> f x gs = (gs ++ g x, Ok tt)) ->
  forall gs, for_each f xs gs = (gs ++ flat_map g xs, Ok tt).
Proof.
  induction xs as [|x rest IH]; intros Hall gs; cbn [for_each flat_map].
  - unfold ret. rewrite app_nil_r. reflexivity.
  - unfold bind_build. rewrite (Hall x gs (or_introl eq_refl)).
    rewrite IH by (intros z zs Hz; apply Hall; right; exact Hz).
    rewrite app_assoc. reflexivity.
Qed.

(** One turn of the oracle loop appends its block and does not raise. *)
Lemma oracle_block_closed_form (N a : Z) (i : nat) (gs : list gate) :
  2 <= N ->
  oracle_block N (length (bin N) - 2) 2 a (i, (control, i)) gs
  = (gs ++ block_gates N (length (bin N) - 2) a i, Ok tt).
Proof.
  intros HN. unfold oracle_block, block_gates, flip_gates.
  unfold bind_build at 1. unfold lift at 1.
  rewrite modular_exponentiation_spec by (try apply Z.pow_nonneg; lia).
  fold (residue N a i).
  assert (Hr : 0 <= residue N a i < N) by (apply Z.mod_pos_bound; lia).
  rewrite (reversed_binary N (residue N a i) HN Hr).
  rewrite enumerate_map_seq.
  set (n := (length (bin N) - 2)%nat).
  unfold bind_build at 1. unfold lift at 1.
  rewrite (reg_get_ok ancilla 2 0) by lia.
  unfold bind_build at 1. unfold emit at 1.
  unfold bind_build at 1.
  rewrite (for_each_emits _
             (fun jb : nat * ascii =>
                if Z.testbit (residue N a i) (Z.of_nat (fst jb))
                then [CCX (ancilla, 0%nat) (control, i) (target, fst jb)] else [])).
  - unfold bind_build, lift, emit.
    rewrite flat_map_concat_map, map_map. cbn [fst].
    rewrite <- flat_map_concat_map.
    rewrite <- !app_assoc. reflexivity.
  - intros [j bit] gs' Hin. apply in_map_iff in Hin.
    destruct Hin as [j' [[= <- <-] Hj]]. apply in_seq in Hj. cbn [fst].
    destruct (Z.testbit (residue N a i) (Z.of_nat j')).
    + cbn [Ascii.eqb Bool.eqb]. unfold bind_build, lift, emit.
      rewrite (reg_get_ok target n j') by lia. reflexivity.
    + cbn [Ascii.eqb Bool.eqb]. unfold ret. rewrite app_nil_r. reflexivity.
Qed.

Local Close Scope char_scope.

(** What [_build_circuit] does for N >= 2: it appends the Hadamards and the
    oracle blocks to the circuit, and then raises NameError. *)
Lemma _build_circuit_closed_form (N a : Z) :
  2 <= N ->
  _build_circuit (LargeNumberShorCircuit_init N)
                 (2 * (length (bin N) - 2)) (length (bin N) - 2) 2 a []
  = (appended_gates N (length (bin N) - 2) a, Raise NameError).
Proof.
  intros HN. unfold _build_circuit.
  cbn [LargeNumberShorCircuit_init shor_N].
  set (n := (length (bin N) - 2)%nat).
  unfold bind_build at 1.
  rewrite (for_each_emits _ (fun q => [H q]))
    by (intros q gs _; reflexivity).
  unfold bind_build at 1.
  unfold appended_gates.
  assert (Hhs : forall l : list qubit, flat_map (fun q => [H q]) l = map H l).
  { induction l as [|q l IH]; [reflexivity | cbn; rewrite IH; reflexivity]. }
  rewrite Hhs.
  assert (Henum : enumerate (reg_qubits control (2 * n))
                  = map (fun j => (j, (control, j))) (seq 0 (2 * n)))
    by apply enumerate_map_seq.
  rewrite Henum.
  rewrite (for_each_emits _
             (fun ic : nat * qubit => block_gates N n a (fst ic))).
  - unfold lift. cbn [app].
    rewrite (flat_map_concat_map _ (map _ _)), map_map. cbn [fst].
    rewrite <- flat_map_concat_map. reflexivity.
  - intros [i q] gs Hin. apply in_map_iff in Hin.
    destruct Hin as [i' [[= <- <-] _]]. cbn [fst].
    apply oracle_block_closed_form. exact HN.
Qed.

(** [create_quantum_circuits] for N >= 2: the circuit it allocates, the
    gates it appends to it, and the NameError it ends in. *)
Lemma create_quantum_circuits_closed_form (N a : Z) :
  2 <= N ->
  create_quantum_circuits (LargeNumberShorCircuit_init N) a
  = (mkCircuit (2 * (length (bin N) - 2)) (length (bin N) - 2) 2
               (2 * (length (bin N) - 2))
               (appended_gates N (length (bin N) - 2) a),
     Raise NameError).
Proof.
  intros HN. unfold create_quantum_circuits.
  cbn [shor_n LargeNumberShorCircuit_init].
  change (_build_circuit _ ?c ?t 2 a [])
    with (_build_circuit (LargeNumberShorCircuit_init N) c t 2 a []).
  rewrite (_build_circuit_closed_form N a HN). reflexivity.
Qed.

(** The registers are allocated before the first gate is appended: their
    sizes depend on the bit length of N only. *)
Lemma create_quantum_circuits_registers (self : LargeNumberShorCircuit) (a : Z) :
  let c := fst (create_quantum_circuits self a) in
  control_size c = (2 * shor_n self)%nat /\
  target_size c = shor_n self /\
  ancilla_size c = 2%nat /\
  classical_size c = (2 * shor_n self)%nat.
Proof.
  unfold create_quantum_circuits.
  destruct (_build_circuit self _ _ _ a []) as [gs r].
  cbn. repeat split.
Qed.

(** The width of the circuit does not depend on [total_qubits]: it is
    3n + 2 whatever the cap says. *)
Lemma num_qubits_uncapped (self : LargeNumberShorCircuit) (a : Z) :
  num_qubits (fst (create_quantum_circuits self a))
  = 3 * Z.of_nat (shor_n self) + 2.
Proof.
  destruct (create_quantum_circuits_registers self a) as [Hc [Ht [Ha _]]].
  unfold num_qubits. rewrite Hc, Ht, Ha. lia.
Qed.

(** No call of [_build_circuit] returns: whatever happens before its last
    statement, that statement raises. *)
Lemma _build_circuit_never_returns (self : LargeNumberShorCircuit)
    (cl tl al : nat) (a : Z) (gs : list gate) (u : unit) :
  snd (_build_circuit self cl tl al a gs) <> Ok u.
Proof.
  unfold _build_circuit, bind_build, lift.
  destruct (for_each _ (reg_qubits control cl) gs) as [gs1 [[]| |]];
    cbn [snd]; try discriminate.
  destruct (for_each _ (enumerate (reg_qubits control cl)) gs1) as [gs2 [[]| |]];
    cbn [snd]; discriminate.
Qed.

Lemma create_quantum_circuits_never_returns (self : LargeNumberShorCircuit)
    (a : Z) (c : circuit) :
  snd (create_quantum_circuits self a) <> Ok c.
Proof.
  unfold create_quantum_circuits.
  pose proof (_build_circuit_never_returns self (2 * shor_n self) (shor_n self)
                2 a []) as Hnever.
  destruct (_build_circuit self _ _ _ a []) as [gs [[]| |]];
    cbn [snd bind] in *; try discriminate.
  exfalso. apply (Hnever tt). reflexivity.
Qed.

(** C2 (the code on every N >= 4 and base 1 < a < N): the call
    [create_quantum_circuits(a)] does not produce a circuit descriptor; it
    raises NameError, at the last statement of [_build_circuit], where the
    name [classical] is not bound. *)
Theorem C2_circuit_builder_raises (N a : Z) :
  4 <= N -> 1 < a < N ->
  snd (create_quantum_circuits (LargeNumberShorCircuit_init N) a)
  = Raise NameError.
Proof.
  intros HN _.
  rewrite (create_quantum_circuits_closed_form N a) by lia. reflexivity.
Qed.

Lemma C2_circuit_builder_raises_witness :
  snd (create_quantum_circuits (LargeNumberShorCircuit_init 15) 2)
  = Raise NameError.
Proof.
  apply (C2_circuit_builder_raises 15 2); lia.
Defined.

(** C3 (the code at N = 2^42 + 1 = 5 * 879609302221, a = 2): the budget
    [total_qubits] is capped at MAX_QUBITS = 128, but the circuit that
    [create_quantum_circuits] allocates has registers of 86, 43 and 2
    qubits, 131 in all; [total_qubits] is not read.  (The call then ends in
    NameError, so no descriptor is returned.) *)
Theorem C3_descriptor_exceeds_cap :
  let gen := LargeNumberShorCircuit_init 4398046511105 in
  let allocated := fst (create_quantum_circuits gen 2) in
  total_qubits gen = MAX_QUBITS /\
  control_size allocated = 86%nat /\
  target_size allocated = 43%nat /\
  ancilla_size allocated = 2%nat /\
  num_qubits allocated = 131 /\
  MAX_QUBITS < num_qubits allocated /\
  snd (create_quantum_circuits gen 2) = Raise NameError.
Proof.
  cbv zeta.
  rewrite (create_quantum_circuits_closed_form 4398046511105 2) by lia.
  cbn [fst snd control_size target_size ancilla_size].
  unfold num_qubits. cbn [control_size target_size ancilla_size].
  repeat split.
Qed.

(** ** Facts about the execution gateway *)

Section Gateway.

Variable run : submission.

(** The three attempts unrolled. *)
Lemma execute_with_retry_unfold :
  execute_with_retry run default_max_retries =
  match run 0%nat with
  | Ok c => ([Submit 0], Ok c)
  | Running => ([Submit 0], Running)
  | Raise _ =>
      match run 1%nat with
      | Ok c => ([Submit 0; Sleep 1; Submit 1], Ok c)
      | Running => ([Submit 0; Sleep 1; Submit 1], Running)
      | Raise _ =>
          match run 2%nat with
          | Ok c => ([Submit 0; Sleep 1; Submit 1; Sleep 2; Submit 2], Ok c)
          | Running => ([Submit 0; Sleep 1; Submit 1; Sleep 2; Submit 2], Running)
          | Raise _ =>
              ([Submit 0; Sleep 1; Submit 1; Sleep 2; Submit 2; Sleep 4], Ok [])
          end
      end
  end.
Proof.
  unfold execute_with_retry, default_max_retries. cbn [seq retry_loop].
  destruct (run 0%nat); [reflexivity | | reflexivity].
  destruct (run 1%nat); [reflexivity | | reflexivity].
  destruct (run 2%nat); reflexivity.
Qed.

Lemma execute_with_retry_no_raise (e : exn) :
  snd (execute_with_retry run default_max_retries) <> Raise e.
Proof.
  rewrite execute_with_retry_unfold.
  destruct (run 0%nat); [discriminate | | discriminate].
  destruct (run 1%nat); [discriminate | | discriminate].
  destruct (run 2%nat); discriminate.
Qed.

Lemma execute_with_retry_at_most_three :
  (submissions (fst (execute_with_retry run default_max_retries)) <= 3)%nat.
Proof.
  rewrite execute_with_retry_unfold.
  destruct (run 0%nat); [simpl; lia | | simpl; lia].
  destruct (run 1%nat); [simpl; lia | | simpl; lia].
  destruct (run 2%nat); simpl; lia.
Qed.

Lemma execute_with_retry_backoff (k : nat) (e : exn) :
  In (Submit k) (fst (execute_with_retry run default_max_retries)) ->
  run k = Raise e ->
  exists before after,
    fst (execute_with_retry run default_max_retries)
    = before ++ Submit k :: Sleep (2 ^ Z.of_nat k) :: after.
Proof.
  rewrite execute_with_retry_unfold.
  intros Hin Hk.
  destruct (run 0%nat) eqn:H0; [| destruct (run 1%nat) eqn:H1;
                                 [| destruct (run 2%nat) eqn:H2 |] |];
    cbn [fst] in *; cbn [In] in Hin;
    repeat match goal with
           | H : _ \/ _ |- _ => destruct H
           | H : False |- _ => destruct H
           | H : Submit _ = Submit _ |- _ => injection H as <-
           | H : Sleep _ = Submit _ |- _ => discriminate H
           end;
    try congruence.
  all: first
    [ exists [], [] ; reflexivity
    | exists [], [Submit 1] ; reflexivity
    | exists [Submit 0; Sleep 1], [] ; reflexivity
    | exists [], [Submit 1; Sleep 2; Submit 2] ; reflexivity
    | exists [Submit 0; Sleep 1], [Submit 2] ; reflexivity
    | exists [Submit 0; Sleep 1; Submit 1; Sleep 2], [] ; reflexivity
    | exists [], [Submit 1; Sleep 2; Submit 2; Sleep 4] ; reflexivity
    | exists [Submit 0; Sleep 1], [Submit 2; Sleep 4] ; reflexivity ].
Qed.

Lemma execute_with_retry_always_failing :
  (forall k, (k < 3)%nat -> exists e, run k = Raise e) ->
  execute_with_retry run default_max_retries
  = ([Submit 0; Sleep 1; Submit 1; Sleep 2; Submit 2; Sleep 4], Ok []).
Proof.
  intros Hfail. rewrite execute_with_retry_unfold.
  destruct (Hfail 0%nat ltac:(lia)) as [e0 ->].
  destruct (Hfail 1%nat ltac:(lia)) as [e1 ->].
  destruct (Hfail 2%nat ltac:(lia)) as [e2 ->].
  reflexivity.
Qed.

End Gateway.

Lemma execute_with_retry_returns (run : submission) :
  (forall k, run k <> Running) ->
  exists r, snd (execute_with_retry run default_max_retries) = Ok r.
Proof.
  intros Hrun. rewrite execute_with_retry_unfold.
  pose proof (Hrun 0%nat). pose proof (Hrun 1%nat). pose proof (Hrun 2%nat).
  destruct (run 0%nat); [eexists; reflexivity | | contradiction].
  destruct (run 1%nat); [eexists; reflexivity | | contradiction].
  destruct (run 2%nat); [eexists; reflexivity | | contradiction].
  eexists; reflexivity.
Qed.

Lemma execute_circuits_no_raise (be : backend) (circuits : list circuit) (e : exn) :
  snd (execute_circuits be circuits) <> Raise e.
Proof.
  unfold execute_circuits. cbn [snd].
  apply mapM_no_raise. intros job Hin.
  apply in_map_iff in Hin. destruct Hin as [[i c] [<- _]].
  apply execute_with_retry_no_raise.
Qed.

(** Position [i] of the list that [execute_circuits] returns is what the
    retry loop of circuit [i] returned. *)
Lemma execute_circuits_positions (be : backend) (circuits : list circuit)
    (rs : list counts) :
  snd (execute_circuits be circuits) = Ok rs ->
  length rs = length circuits /\
  forall i c, nth_error circuits i = Some c ->
    exists r, nth_error rs i = Some r /\
              snd (execute_with_retry (be i c) default_max_retries) = Ok r.
Proof.
  unfold execute_circuits. cbn [snd]. intros Hrs.
  apply mapM_Forall2 in Hrs. split.
  - apply Forall2_length in Hrs.
    rewrite length_map, length_enumerate in Hrs. congruence.
  - intros i c Hi.
    apply (Forall2_nth_error_l _ _ _ Hrs i
             (execute_with_retry (be i c) default_max_retries)).
    rewrite nth_error_map. unfold enumerate.
    rewrite (nth_error_combine_seq circuits 0 i c Hi). reflexivity.
Qed.

(** A batch on a backend that fails every attempt: every circuit gets its
    three attempts and its empty histogram. *)
Lemma execute_circuits_always_failing (be : backend) (circuits : list circuit) :
  (forall i c k, (k < 3)%nat -> exists e, be i c k = Raise e) ->
  execute_circuits be circuits
  = (map (fun _ => [Submit 0; Sleep 1; Submit 1; Sleep 2; Submit 2; Sleep 4])
         circuits,
     Ok (map (fun _ => []) circuits)).
Proof.
  intros Hfail. unfold execute_circuits.
  set (t := [Submit 0; Sleep 1; Submit 1; Sleep 2; Submit 2; Sleep 4]).
  assert (Hjobs :
    map (fun ic : nat * circuit =>
           execute_with_retry (be (fst ic) (snd ic)) default_max_retries)
        (enumerate circuits)
    = map (fun _ => (t, Ok (@nil (bitstring * Z)))) (enumerate circuits)).
  { apply map_ext. intros [i c]. cbn [fst snd].
    apply execute_with_retry_always_failing. intros k Hk. apply Hfail. exact Hk. }
  rewrite Hjobs, map_map. cbn [fst]. f_equal.
  - apply map_const_same_length. apply length_enumerate.
  - rewrite (mapM_const snd (@nil (bitstring * Z)));
      [| intros job Hin; apply in_map_iff in Hin;
         destruct Hin as [_ [<- _]]; reflexivity ].
    rewrite map_map. f_equal.
    apply map_const_same_length. apply length_enumerate.
Qed.

(** C7: a circuit is submitted at most 3 times; a failed attempt [k] is
    followed at once by a sleep of [2 ^ k]; the gateway never raises; and
    when every attempt fails the trace is submit, sleep 1, submit, sleep 2,
    submit, sleep 4 (3 submissions, 7 time units) and the result is the empty
    histogram.  In a batch each circuit gets its own three attempts:
    [execute_circuits] never raises, it returns unless a backend call never
    comes back, the list it returns has one histogram per circuit, the one at
    position [i] being what the retry loop of circuit [i] returned, empty
    when all three attempts on that circuit failed; on a backend that always
    fails it returns one empty histogram per circuit after three attempts on
    each. *)
Theorem C7_gateway_retry_backoff (run : submission) (be : backend)
    (circuits : list circuit) :
  let t := fst (execute_with_retry run default_max_retries) in
  let r := snd (execute_with_retry run default_max_retries) in
  (submissions t <= 3)%nat /\
  (forall k e, In (Submit k) t -> run k = Raise e ->
     exists before after, t = before ++ Submit k :: Sleep (2 ^ Z.of_nat k) :: after) /\
  (forall e, r <> Raise e) /\
  ((forall k, (k < 3)%nat -> exists e, run k = Raise e) ->
     t = [Submit 0; Sleep 1; Submit 1; Sleep 2; Submit 2; Sleep 4] /\
     submissions t = 3%nat /\ total_sleep t = 1 + 2 + 4 /\ r = Ok []) /\
  (forall e, snd (execute_circuits be circuits) <> Raise e) /\
  fst (execute_circuits be circuits)
  = map (fun ic => fst (execute_with_retry (be (fst ic) (snd ic)) default_max_retries))
        (enumerate circuits) /\
  ((forall i c k, be i c k <> Running) ->
   exists rs, snd (execute_circuits be circuits) = Ok rs) /\
  (forall rs,
     snd (execute_circuits be circuits) = Ok rs ->
     length rs = length circuits /\
     forall i c, nth_error circuits i = Some c ->
       exists r_i,
         nth_error rs i = Some r_i /\
         snd (execute_with_retry (be i c) default_max_retries) = Ok r_i /\
         ((forall k, (k < 3)%nat -> exists e, be i c k = Raise e) -> r_i = [])) /\
  ((forall i c k, (k < 3)%nat -> exists e, be i c k = Raise e) ->
   execute_circuits be circuits
   = (map (fun _ => [Submit 0; Sleep 1; Submit 1; Sleep 2; Submit 2; Sleep 4])
          circuits,
      Ok (map (fun _ => []) circuits))).
Proof.
  cbv zeta.
  split; [apply execute_with_retry_at_most_three|].
  split; [intros k e; apply execute_with_retry_backoff|].
  split; [intros e; apply execute_with_retry_no_raise|].
  split.
  { intros Hfail. rewrite execute_with_retry_always_failing by assumption.
    split; [reflexivity|]. split; [reflexivity|]. split; reflexivity. }
  split; [intros e; apply execute_circuits_no_raise|].
  split; [unfold execute_circuits; cbn [fst]; rewrite map_map; reflexivity|].
  split.
  { intros Hbe. unfold execute_circuits. cbn [snd].
    match goal with
    | |- context [mapM ?f ?xs] => destruct (mapM_ok f xs) as [rs [Hrs _]]
    end.
    - intros job Hin. apply in_map_iff in Hin. destruct Hin as [[i c] [<- _]].
      apply execute_with_retry_returns. intros k. apply Hbe.
    - exists rs. exact Hrs. }
  split; [| apply execute_circuits_always_failing].
  intros rs Hrs.
  destruct (execute_circuits_positions be circuits rs Hrs) as [Hlen Hpos].
  split; [exact Hlen|].
  intros i c Hi. destruct (Hpos i c Hi) as [r_i [Hnth Hri]].
  exists r_i. split; [exact Hnth|]. split; [exact Hri|].
  intros Hfail.
  rewrite (execute_with_retry_always_failing (be i c) Hfail) in Hri.
  cbn [snd] in Hri. congruence.
Qed.

Lemma C7_gateway_retry_backoff_witness :
  let run : submission := fun _ => Raise BackendError in
  let t := fst (execute_with_retry run default_max_retries) in
  let batch := [mkCircuit 6 3 2 6 []; mkCircuit 8 4 2 8 []] in
  t = [Submit 0; Sleep 1; Submit 1; Sleep 2; Submit 2; Sleep 4] /\
  total_sleep t = 7 /\
  snd (execute_with_retry run default_max_retries) = Ok [] /\
  execute_circuits failing_backend batch
  = ([[Submit 0; Sleep 1; Submit 1; Sleep 2; Submit 2; Sleep 4];
      [Submit 0; Sleep 1; Submit 1; Sleep 2; Submit 2; Sleep 4]],
     Ok [[]; []]).
Proof.
  pose (run := (fun _ => Raise BackendError) : submission).
  pose (batch := [mkCircuit 6 3 2 6 []; mkCircuit 8 4 2 8 []]).
  destruct (C7_gateway_retry_backoff run failing_backend batch)
    as [_ [_ [_ [Hall [_ [_ [_ [_ Hbatch]]]]]]]].
  destruct Hall as [Ht [_ [Hs Hr]]].
  - intros k _. exists BackendError. reflexivity.
  - cbv zeta. split; [exact Ht|]. split; [exact Hs|]. split; [exact Hr|].
    apply Hbatch. intros i c k _. exists BackendError. reflexivity.
Defined.

(** ** Facts about the orchestrator *)

Lemma nontrivial_spec (N factor : Z) :
  nontrivial N factor = true <-> 1 < factor < N.
Proof.
  unfold nontrivial. rewrite andb_true_iff, !Z.ltb_lt. tauto.
Qed.

(** A proper divisor and its cofactor. *)
Lemma proper_divisor_pair (N factor : Z) :
  (factor | N) -> 1 < factor < N ->
  factor * (N / factor) = N /\ 1 < N / factor < N.
Proof.
  intros [k Hk] Hf. subst N.
  rewrite Z.div_mul by lia.
  split; [ring | nia].
Qed.

Lemma classical_check_sound (N : Z) (bases : list Z) (pq : Z * Z) :
  classical_check N bases = Some pq -> factor_pair N pq.
Proof.
  induction bases as [|a rest IH]; cbn [classical_check]; [discriminate|].
  destruct (nontrivial N (Z.gcd a N)) eqn:Hnt; [| exact IH].
  intros [= <-]. apply nontrivial_spec in Hnt.
  destruct (proper_divisor_pair N (Z.gcd a N) (Z.gcd_divide_r a N) Hnt).
  unfold factor_pair. cbn [fst snd]. tauto.
Qed.

Lemma factor_scan_sound (N : Z) (factors : list Z) (pq : Z * Z) :
  Forall (fun f => (f | N)) factors ->
  factor_scan N factors = Some pq -> factor_pair N pq.
Proof.
  induction 1 as [|f rest Hf _ IH]; cbn [factor_scan]; [discriminate|].
  destruct (nontrivial N f) eqn:Hnt; [| exact IH].
  intros [= <-]. apply nontrivial_spec in Hnt.
  destruct (proper_divisor_pair N f Hf Hnt).
  unfold factor_pair. cbn [fst snd]. tauto.
Qed.

Lemma period_phase_sound (N : Z) (pairs : list (Z * counts)) (pq : Z * Z) :
  period_phase N pairs = Ok (Some pq) -> factor_pair N pq.
Proof.
  induction pairs as [|[a cs] rest IH]; cbn [period_phase]; [discriminate|].
  destruct cs as [|oc cs']; [exact IH|].
  destruct (optimized_period_finding (oc :: cs') N) as [[r|]| |];
    cbn [bind]; try discriminate; [| exact IH].
  destruct (negb (r =? 0) && (r mod 2 =? 0)); [| exact IH].
  destruct (modular_exponentiation a (r / 2) N) as [x| |];
    cbn [bind]; try discriminate.
  destruct (factor_scan N [Z.gcd (x - 1) N; Z.gcd (x + 1) N]) as [pq'|] eqn:Hscan;
    [| exact IH].
  intros [= <-].
  apply (factor_scan_sound N [Z.gcd (x - 1) N; Z.gcd (x + 1) N]); [| exact Hscan].
  repeat constructor; apply Z.gcd_divide_r.
Qed.

Lemma round_sound (N : Z) (gen : LargeNumberShorCircuit) (env : round_env)
    (pq : Z * Z) :
  snd (round N gen env) = Ok (Some pq) -> factor_pair N pq.
Proof.
  unfold round.
  destruct (2 <? Z.min N (2 ^ 32)); [| discriminate].
  destruct (classical_check N (drawn env)) as [pq'|] eqn:Hcc.
  - cbn [snd]. intros [= <-]. exact (classical_check_sound _ _ _ Hcc).
  - destruct (build_all gen (drawn env)) as [tb [circuits| |]];
      cbn [snd]; try discriminate.
    destruct (execute_circuits (service env) circuits) as [jobs [rs| |]];
      cbn [snd bind]; try discriminate.
    apply period_phase_sound.
Qed.

Lemma shor_loop_sound (N : Z) (gen : LargeNumberShorCircuit)
    (envs : list round_env) (pq : Z * Z) :
  snd (shor_loop N gen envs) = Ok pq -> factor_pair N pq.
Proof.
  induction envs as [|env rest IH]; cbn [shor_loop]; [discriminate|].
  pose proof (round_sound N gen env) as Hround.
  destruct (round N gen env) as [t [[pq'|]| |]]; cbn [snd] in *.
  - intros [= <-]. apply Hround. reflexivity.
  - destruct (shor_loop N gen rest). exact IH.
  - destruct (shor_loop N gen rest). exact IH.
  - discriminate.
Qed.

Lemma shor_loop_no_raise (N : Z) (gen : LargeNumberShorCircuit)
    (envs : list round_env) (e : exn) :
  snd (shor_loop N gen envs) <> Raise e.
Proof.
  induction envs as [|env rest IH]; cbn [shor_loop]; [discriminate|].
  destruct (round N gen env) as [t [[pq'|]| |]]; cbn [snd];
    try discriminate;
    destruct (shor_loop N gen rest); exact IH.
Qed.

(** C1: whenever [run_shors_algorithm N] returns, for N >= 4, the pair
    [(p, q)] it returns has [p * q = N], [1 < p < N] and [1 < q < N]; this
    holds for the pair produced by the classical gcd loop and for the pair
    produced from a period. *)
Theorem C1_returned_pair_factors_N (N : Z) (envs : list round_env) (p q : Z) :
  4 <= N ->
  snd (run_shors_algorithm N envs) = Ok (p, q) ->
  p * q = N /\ 1 < p < N /\ 1 < q < N.
Proof.
  intros _ Hret. exact (shor_loop_sound _ _ _ _ Hret).
Qed.

(** The two return statements taken one at a time. *)
Lemma both_return_paths_sound (N : Z) :
  (forall bases pq, classical_check N bases = Some pq -> factor_pair N pq) /\
  (forall pairs pq, period_phase N pairs = Ok (Some pq) -> factor_pair N pq).
Proof.
  split; [apply classical_check_sound | apply period_phase_sound].
Qed.

Lemma C1_returned_pair_factors_N_witness :
  let envs := [mkRound [2; 5; 8; 10; 11; 13; 16; 20] failing_backend;
               mkRound [4; 19; 14; 3; 17; 6; 2; 12] failing_backend] in
  snd (run_shors_algorithm 21 envs) = Ok (7, 3) /\
  7 * 3 = 21 /\ 1 < 7 < 21 /\ 1 < 3 < 21.
Proof.
  cbv zeta. split; [vm_compute; reflexivity|].
  apply (C1_returned_pair_factors_N 21
           [mkRound [2; 5; 8; 10; 11; 13; 16; 20] failing_backend;
            mkRound [4; 19; 14; 3; 17; 6; 2; 12] failing_backend] 7 3);
    [lia | vm_compute; reflexivity].
Defined.

(** ** The classical short-circuit *)

Lemma classical_check_first (N : Z) (bases : list Z) (a : Z) :
  In a bases -> nontrivial N (Z.gcd a N) = true ->
  exists before a' after,
    bases = before ++ a' :: after /\
    Forall (fun b => nontrivial N (Z.gcd b N) = false) before /\
    nontrivial N (Z.gcd a' N) = true /\
    classical_check N bases = Some (Z.gcd a' N, N / Z.gcd a' N).
Proof.
  induction bases as [|b rest IH]; intros Hin Hnt; [destruct Hin|].
  cbn [classical_check].
  destruct (nontrivial N (Z.gcd b N)) eqn:Hb.
  - exists [], b, rest. repeat split; [constructor | exact Hb].
  - destruct Hin as [-> | Hin]; [congruence|].
    destruct (IH Hin Hnt) as [before [a' [after [-> [Hpre [Ha' Hcc]]]]]].
    exists (b :: before), a', after.
    repeat split; [constructor; assumption | exact Ha' | exact Hcc].
Qed.

(** Rounds that end without a [return] hand over to the next round. *)
Lemma shor_loop_after_unproductive (N : Z) (gen : LargeNumberShorCircuit)
    (earlier : list round_env) (env : round_env) (rest : list round_env)
    (t : list round_event) (pq : Z * Z) :
  Forall (unproductive N gen) earlier ->
  round N gen env = (t, Ok (Some pq)) ->
  shor_loop N gen (earlier ++ env :: rest)
  = (map (fun e => fst (round N gen e)) earlier ++ [t], Ok pq).
Proof.
  intros Hearlier Hround.
  induction Hearlier as [|e earlier He _ IH]; cbn [app shor_loop map].
  - rewrite Hround. reflexivity.
  - unfold unproductive in He.
    destruct (round N gen e) as [te re]. cbn [fst snd] in *.
    destruct He as [-> | [x ->]]; rewrite IH; reflexivity.
Qed.

(** C8: in any round, reached after any number of rounds that returned
    nothing, where some drawn base has [1 < gcd(a, N) < N], the round ends in
    the classical loop: it returns [(gcd(a', N), N / gcd(a', N))] for the
    first such base [a'] in drawing order, and its trace is empty, so no
    circuit was built and none was executed in that round.  With N = 15 and
    a = 5 drawn first the pair is (5, 3). *)
Theorem C8_classical_check_first (N : Z) (earlier : list round_env)
    (env : round_env) (rest : list round_env) (a : Z) :
  4 <= N ->
  Forall (unproductive N (LargeNumberShorCircuit_init N)) earlier ->
  In a (drawn env) ->
  1 < Z.gcd a N < N ->
  exists before a' after,
    drawn env = before ++ a' :: after /\
    Forall (fun b => ~ 1 < Z.gcd b N < N) before /\
    1 < Z.gcd a' N < N /\
    round N (LargeNumberShorCircuit_init N) env
    = ([], Ok (Some (Z.gcd a' N, N / Z.gcd a' N))) /\
    run_shors_algorithm N (earlier ++ env :: rest)
    = (map (fun e => fst (round N (LargeNumberShorCircuit_init N) e)) earlier ++ [[]],
       Ok (Z.gcd a' N, N / Z.gcd a' N)).
Proof.
  intros HN Hearlier Hin Hgcd.
  apply nontrivial_spec in Hgcd.
  destruct (classical_check_first N (drawn env) a Hin Hgcd)
    as [before [a' [after [Hsplit [Hpre [Ha' Hcc]]]]]].
  exists before, a', after.
  assert (Hround : round N (LargeNumberShorCircuit_init N) env
                   = ([], Ok (Some (Z.gcd a' N, N / Z.gcd a' N)))).
  { unfold round. rewrite Hcc.
    destruct (Z.ltb_spec 2 (Z.min N (2 ^ 32))) as [_ | Hbad]; [reflexivity|].
    assert (2 ^ 32 = 4294967296) by reflexivity. lia. }
  apply nontrivial_spec in Ha'.
  split; [exact Hsplit|]. split; [| split; [exact Ha' | split; [exact Hround|]]].
  - eapply Forall_impl; [| exact Hpre].
    intros b Hb Hnt. apply nontrivial_spec in Hnt. congruence.
  - unfold run_shors_algorithm.
    apply shor_loop_after_unproductive; assumption.
Qed.

Lemma C8_classical_check_first_witness :
  let earlier := [mkRound [7; 2] failing_backend] in
  let env := mkRound [5; 7; 2; 11; 13; 4; 8; 14] failing_backend in
  exists before a' after,
    drawn env = before ++ a' :: after /\
    Forall (fun b => ~ 1 < Z.gcd b 15 < 15) before /\
    1 < Z.gcd a' 15 < 15 /\
    round 15 (LargeNumberShorCircuit_init 15) env
    = ([], Ok (Some (Z.gcd a' 15, 15 / Z.gcd a' 15))) /\
    run_shors_algorithm 15 (earlier ++ env :: [])
    = (map (fun e => fst (round 15 (LargeNumberShorCircuit_init 15) e)) earlier ++ [[]],
       Ok (Z.gcd a' 15, 15 / Z.gcd a' 15)).
Proof.
  apply (C8_classical_check_first 15
           [mkRound [7; 2] failing_backend]
           (mkRound [5; 7; 2; 11; 13; 4; 8; 14] failing_backend) [] 5).
  - lia.
  - constructor; [| constructor]. right. exists NameError. vm_compute. reflexivity.
  - simpl. left. reflexivity.
  - vm_compute. split; reflexivity.
Defined.

(** The scenario of the specification: N = 15, a = 5 drawn first. *)
Example fifteen_by_gcd :
  run_shors_algorithm 15 [mkRound [5; 7; 2; 11; 13; 4; 8; 14] failing_backend]
  = ([[]], Ok (5, 3)).
Proof. vm_compute. reflexivity. Qed.

(** ** Rounds that find nothing *)

Lemma classical_check_none (N : Z) (bases : list Z) :
  Forall (fun a => ~ 1 < Z.gcd a N < N) bases ->
  classical_check N bases = None.
Proof.
  induction 1 as [|a rest Ha _ IH]; cbn [classical_check]; [reflexivity|].
  destruct (nontrivial N (Z.gcd a N)) eqn:Hnt; [| exact IH].
  apply nontrivial_spec in Hnt. contradiction.
Qed.

(** The list comprehension of main.py:103 stops at its first element: the
    first call of [create_quantum_circuits] does not return. *)
Lemma build_all_stops (gen : LargeNumberShorCircuit) (a : Z) (rest : list Z) :
  exists r,
    build_all gen (a :: rest) = ([Built a], r) /\ forall cs, r <> Ok cs.
Proof.
  cbn [build_all].
  pose proof (create_quantum_circuits_never_returns gen a) as Hnever.
  destruct (snd (create_quantum_circuits gen a)) as [c | e |].
  - destruct (Hnever c eq_refl).
  - exists (Raise e). split; [reflexivity | discriminate].
  - exists Running. split; [reflexivity | discriminate].
Qed.

(** What a round can be: the randint call fails; or the gcd loop returns;
    or, with no base drawn, an empty batch is dispatched and the round falls
    through; or the round stops at the first call of the circuit builder. *)
Lemma round_cases (N : Z) (gen : LargeNumberShorCircuit) (env : round_env) :
  round N gen env = ([], Raise ValueError) \/
  (exists pq, classical_check N (drawn env) = Some pq /\
              round N gen env = ([], Ok (Some pq))) \/
  (drawn env = [] /\ round N gen env = ([Dispatched []], Ok None)) \/
  (exists a rest r,
     drawn env = a :: rest /\ classical_check N (drawn env) = None /\
     round N gen env = ([Built a], r) /\ forall res, r <> Ok res).
Proof.
  unfold round.
  destruct (2 <? Z.min N (2 ^ 32)); [| left; reflexivity].
  right.
  destruct (classical_check N (drawn env)) as [pq|] eqn:Hcc.
  { left. exists pq. split; reflexivity. }
  right.
  destruct (drawn env) as [|a rest] eqn:Hdrawn.
  - left. split; reflexivity.
  - right. destruct (build_all_stops gen a rest) as [r [-> Hr]].
    exists a, rest.
    destruct r as [cs | e |].
    + destruct (Hr cs eq_refl).
    + exists (Raise e). repeat split; discriminate.
    + exists Running. repeat split; discriminate.
Qed.

(** For N >= 4, a round whose bases have no proper gcd with N ends in the
    NameError of the first circuit built. *)
Lemma round_without_gcd (N : Z) (env : round_env) :
  4 <= N ->
  Forall (fun a => ~ 1 < Z.gcd a N < N) (drawn env) ->
  round N (LargeNumberShorCircuit_init N) env
  = match drawn env with
    | [] => ([Dispatched []], Ok None)
    | a :: _ => ([Built a], Raise NameError)
    end.
Proof.
  intros HN Hgcd. unfold round.
  destruct (Z.ltb_spec 2 (Z.min N (2 ^ 32))) as [_ | Hbad];
    [| assert (2 ^ 32 = 4294967296) by reflexivity; lia].
  rewrite (classical_check_none _ _ Hgcd).
  destruct (drawn env) as [|a rest]; [reflexivity|].
  cbn [build_all].
  rewrite (create_quantum_circuits_closed_form N a) by lia.
  reflexivity.
Qed.

Lemma round_without_gcd_unproductive (N : Z) (env : round_env) :
  4 <= N ->
  Forall (fun a => ~ 1 < Z.gcd a N < N) (drawn env) ->
  unproductive N (LargeNumberShorCircuit_init N) env.
Proof.
  intros HN Hgcd. unfold unproductive.
  rewrite (round_without_gcd N env HN Hgcd).
  destruct (drawn env); [left; reflexivity | right; exists NameError; reflexivity].
Qed.

Lemma shor_loop_without_gcd (N : Z) (envs : list round_env) :
  4 <= N ->
  Forall (fun env => Forall (fun a => ~ 1 < Z.gcd a N < N) (drawn env)) envs ->
  snd (shor_loop N (LargeNumberShorCircuit_init N) envs) = Running /\
  Forall2 (fun env t => t = match drawn env with
                            | [] => [Dispatched []]
                            | a :: _ => [Built a]
                            end)
          envs (fst (shor_loop N (LargeNumberShorCircuit_init N) envs)).
Proof.
  intros HN. induction 1 as [|env rest Henv _ [IHr IHt]].
  - split; [reflexivity | constructor].
  - cbn [shor_loop]. rewrite (round_without_gcd N env HN Henv).
    destruct (shor_loop N (LargeNumberShorCircuit_init N) rest) as [ts r].
    cbn [fst snd] in *.
    destruct (drawn env) as [|a bases] eqn:Hdrawn; cbn [fst snd];
      (split; [exact IHr | constructor; [rewrite Hdrawn; reflexivity | exact IHt]]).
Qed.

(** ** The gateway and the period loop on empty histograms *)

Lemma execute_with_retry_nothing (run : submission) :
  (forall k, run k = Ok [] \/ exists e, run k = Raise e) ->
  snd (execute_with_retry run default_max_retries) = Ok [].
Proof.
  intros Hrun. rewrite execute_with_retry_unfold.
  destruct (Hrun 0%nat) as [-> | [e0 ->]]; [reflexivity|].
  destruct (Hrun 1%nat) as [-> | [e1 ->]]; [reflexivity|].
  destruct (Hrun 2%nat) as [-> | [e2 ->]]; reflexivity.
Qed.

Lemma execute_circuits_nothing (be : backend) (circuits : list circuit) :
  yields_nothing be ->
  exists rs,
    snd (execute_circuits be circuits) = Ok rs /\ Forall (fun cs => cs = []) rs.
Proof.
  intros Hbe. unfold execute_circuits. cbn [snd].
  eexists. split.
  - apply mapM_const with (y := @nil (bitstring * Z)).
    intros job Hin. apply in_map_iff in Hin. destruct Hin as [[i c] [<- _]].
    apply execute_with_retry_nothing. intros k. apply Hbe.
  - apply Forall_forall. intros cs Hin.
    apply in_map_iff in Hin. destruct Hin as [_ [<- _]]. reflexivity.
Qed.

Lemma period_phase_nothing (N : Z) (bases : list Z) (rs : list counts) :
  Forall (fun cs => cs = []) rs ->
  period_phase N (combine bases rs) = Ok None.
Proof.
  intros Hrs. revert bases.
  induction Hrs as [|cs rest -> _ IH]; intros [|a bases]; try reflexivity.
  cbn [combine period_phase]. apply IH.
Qed.

(** C9: [run_shors_algorithm] never ends in an exception, whatever the
    random source and the backend do.  For N >= 4, when no drawn base shares
    a proper factor with N and every backend reply is an empty histogram (or
    a failure, which the gateway turns into one), every round granted to the
    loop is carried out and ends without a [return], and the loop is still
    running after it: it does not return and does not raise, however many
    rounds pass.  Each such round ends at the first circuit it builds, with
    the NameError of the builder caught by [except Exception: pass].  The
    part of a round after the builder, taken on its own: on such a backend
    [execute_circuits] returns histograms on which the loop over the results
    falls through without a [return] and without an exception. *)
Theorem C9_retries_without_raising (N : Z) (envs : list round_env) :
  (forall e, snd (run_shors_algorithm N envs) <> Raise e) /\
  (4 <= N -> Forall (barren N) envs ->
   snd (run_shors_algorithm N envs) = Running /\
   length (fst (run_shors_algorithm N envs)) = length envs /\
   Forall (unproductive N (LargeNumberShorCircuit_init N)) envs /\
   Forall2 (fun env t => t = match drawn env with
                             | [] => [Dispatched []]
                             | a :: _ => [Built a]
                             end)
           envs (fst (run_shors_algorithm N envs))) /\
  (forall be bases circuits,
     yields_nothing be ->
     exists rs,
       snd (execute_circuits be circuits) = Ok rs /\
       length rs = length circuits /\
       period_phase N (combine bases rs) = Ok None).
Proof.
  split; [intros e; apply shor_loop_no_raise|]. split.
  - intros HN Hbarren.
    assert (Hgcd : Forall (fun env => Forall (fun a => ~ 1 < Z.gcd a N < N)
                                             (drawn env)) envs).
    { eapply Forall_impl; [| exact Hbarren]. intros env [Hg _]. exact Hg. }
    destruct (shor_loop_without_gcd N envs HN Hgcd) as [Hr Ht].
    split; [exact Hr|]. split; [symmetry; exact (Forall2_length Ht)|].
    split; [| exact Ht].
    eapply Forall_impl; [| exact Hgcd].
    intros env Hg. apply round_without_gcd_unproductive; assumption.
  - intros be bases circuits Hbe.
    destruct (execute_circuits_nothing be circuits Hbe) as [rs [Hrs Hempty]].
    exists rs. split; [exact Hrs|]. split.
    + apply (execute_circuits_positions be circuits rs Hrs).
    + apply period_phase_nothing. exact Hempty.
Qed.

Lemma C9_retries_without_raising_witness :
  let envs := [mkRound [7; 2] failing_backend;
               mkRound [11; 13] (constant_backend []);
               mkRound [4; 8] failing_backend] in
  snd (run_shors_algorithm 15 envs) = Running /\
  length (fst (run_shors_algorithm 15 envs)) = 3%nat /\
  fst (run_shors_algorithm 15 envs) = [[Built 7]; [Built 11]; [Built 4]].
Proof.
  pose (envs := [mkRound [7; 2] failing_backend;
                 mkRound [11; 13] (constant_backend []);
                 mkRound [4; 8] failing_backend]).
  destruct (C9_retries_without_raising 15 envs) as [_ [Hloop _]].
  destruct Hloop as [Hr [Hlen _]].
  - lia.
  - assert (Hcoprime : forall a, Z.gcd a 15 = 1 -> ~ 1 < Z.gcd a 15 < 15)
      by (intros a ->; lia).
    repeat apply Forall_cons; try apply Forall_nil; split; cbn [drawn service].
    + repeat apply Forall_cons; try apply Forall_nil; apply Hcoprime; reflexivity.
    + intros i c k. right. exists BackendError. reflexivity.
    + repeat apply Forall_cons; try apply Forall_nil; apply Hcoprime; reflexivity.
    + intros i c k. left. reflexivity.
    + repeat apply Forall_cons; try apply Forall_nil; apply Hcoprime; reflexivity.
    + intros i c k. right. exists BackendError. reflexivity.
  - cbv zeta. split; [exact Hr|]. split; [exact Hlen|]. vm_compute. reflexivity.
Defined.

(** ** Facts about binary64 rounding *)

Lemma digits2_pos_size (p : positive) : digits2_pos p = Pos.size p.
Proof. induction p; simpl; congruence. Qed.

Lemma Zdigits2_nonneg (m : Z) : 0 <= Zdigits2 m.
Proof. destruct m; simpl; lia. Qed.

Lemma Zdigits2_gt (m : Z) : 0 <= m -> m < 2 ^ Zdigits2 m.
Proof.
  intros Hm. destruct m as [|p|p]; [reflexivity | | lia].
  cbn [Zdigits2]. rewrite digits2_pos_size.
  pose proof (Pos.size_gt p) as Hgt.
  apply Pos2Z.pos_lt_pos in Hgt. rewrite Pos2Z.inj_pow in Hgt. exact Hgt.
Qed.

Lemma Zdigits2_le (m k : Z) : 0 <= k -> 0 <= m < 2 ^ k -> Zdigits2 m <= k.
Proof.
  intros Hk Hm. destruct m as [|p|p]; [exact Hk | | lia].
  cbn [Zdigits2]. rewrite digits2_pos_size.
  pose proof (Pos.size_le p) as Hle.
  apply Pos2Z.pos_le_pos in Hle. rewrite Pos2Z.inj_pow in Hle.
  destruct (Z.le_gt_cases (Z.pos (Pos.size p)) k) as [Hok | Hbig]; [exact Hok|].
  exfalso.
  assert (Hpow : 2 ^ (k + 1) <= 2 ^ Z.pos (Pos.size p))
    by (apply Z.pow_le_mono_r; lia).
  rewrite Z.pow_add_r, Z.pow_1_r in Hpow by lia.
  change (Z.pos p~0) with (2 * Z.pos p) in Hle. lia.
Qed.

Lemma shr_1_half (mrs : shr_record) :
  0 <= shr_m mrs ->
  0 <= shr_m (shr_1 mrs) /\ 2 * shr_m (shr_1 mrs) <= shr_m mrs.
Proof.
  destruct mrs as [m r s]. cbn [shr_m].
  destruct m as [|[p|p|]|p]; cbn [shr_1 shr_m]; lia.
Qed.

Lemma iter_shr_1_bound (p : positive) :
  forall mrs,
    0 <= shr_m mrs ->
    0 <= shr_m (iter_pos shr_1 p mrs) /\
    shr_m (iter_pos shr_1 p mrs) * 2 ^ Z.pos p <= shr_m mrs.
Proof.
  induction p as [p IH | p IH |]; intros mrs Hm; cbn [iter_pos].
  - destruct (shr_1_half mrs Hm) as [H0 H1].
    destruct (IH _ H0) as [H2 H3].
    destruct (IH _ H2) as [H4 H5].
    split; [exact H4|].
    replace (Z.pos p~1) with (Z.pos p + Z.pos p + 1) by lia.
    rewrite !Z.pow_add_r, Z.pow_1_r by lia.
    pose proof (Z.pow_pos_nonneg 2 (Z.pos p) ltac:(lia) ltac:(lia)). nia.
  - destruct (IH _ Hm) as [H2 H3].
    destruct (IH _ H2) as [H4 H5].
    split; [exact H4|].
    replace (Z.pos p~0) with (Z.pos p + Z.pos p) by lia.
    rewrite !Z.pow_add_r by lia.
    pose proof (Z.pow_pos_nonneg 2 (Z.pos p) ltac:(lia) ltac:(lia)). nia.
  - destruct (shr_1_half mrs Hm) as [H0 H1].
    split; [exact H0|]. change (2 ^ 1) with 2. lia.
Qed.

Lemma shr_m_of_loc (m : Z) (l : location) : shr_m (shr_record_of_loc m l) = m.
Proof. destruct l as [|[| |]]; reflexivity. Qed.

Lemma fexp_bounds (e : Z) :
  e - 53 <= fexp prec emax e /\ -1074 <= fexp prec emax e /\
  (fexp prec emax e = e - 53 \/ fexp prec emax e = -1074).
Proof. unfold fexp, emin, prec, emax. lia. Qed.

(** One call of [shr_fexp] on a non-negative mantissa: the mantissa that
    comes out has at most 53 bits and the exponent is the larger of the old
    one and the canonical one. *)
Lemma shr_fexp_bound (m e : Z) (l : location) :
  0 <= m ->
  let '(mrs, e') := shr_fexp prec emax m e l in
  0 <= shr_m mrs < 2 ^ 53 /\ shr_m mrs <= m /\
  e' = Z.max e (fexp prec emax (Zdigits2 m + e)).
Proof.
  intros Hm. unfold shr_fexp, shr.
  pose proof (fexp_bounds (Zdigits2 m + e)) as [Hlo _].
  pose proof (Zdigits2_gt m Hm) as Hgt.
  pose proof (Zdigits2_nonneg m) as Hd.
  destruct (fexp prec emax (Zdigits2 m + e) - e) as [|p|p] eqn:Hn.
  - rewrite shr_m_of_loc. repeat split; try lia.
    apply Z.lt_le_trans with (1 := Hgt). apply Z.pow_le_mono_r; lia.
  - destruct (iter_shr_1_bound p (shr_record_of_loc m l)) as [H0 H1];
      [rewrite shr_m_of_loc; exact Hm|].
    rewrite shr_m_of_loc in H1.
    set (m1 := shr_m (iter_pos shr_1 p (shr_record_of_loc m l))) in *.
    pose proof (Z.pow_pos_nonneg 2 (Z.pos p) ltac:(lia) ltac:(lia)) as Hpp.
    repeat split; try lia; try nia.
    assert (Hle : 2 ^ Zdigits2 m <= 2 ^ (Z.pos p + 53))
      by (apply Z.pow_le_mono_r; lia).
    rewrite Z.pow_add_r in Hle by lia. nia.
  - rewrite shr_m_of_loc. repeat split; try lia.
    apply Z.lt_le_trans with (1 := Hgt). apply Z.pow_le_mono_r; lia.
Qed.

Lemma round_nearest_even_bound (m : Z) (l : location) :
  m <= round_nearest_even m l <= m + 1.
Proof.
  unfold round_nearest_even.
  destruct l as [|[| |]]; try lia. destruct (Z.even m); lia.
Qed.

(** Rounding a non-negative mantissa whose value is below 2^1023 and whose
    exponent is at most 970 never overflows. *)
Lemma binary_round_aux_finite (s : bool) (mx ex : Z) (lx : location) :
  0 <= mx -> ex <= 970 -> Zdigits2 mx + ex <= 1023 ->
  finite_with_sign s (binary_round_aux prec emax s mx ex lx).
Proof.
  intros Hm Hex Hval. unfold binary_round_aux.
  pose proof (shr_fexp_bound mx ex lx Hm) as H1.
  destruct (shr_fexp prec emax mx ex lx) as [mrs1 e1].
  destruct H1 as [[H1lo H1hi] [_ He1]].
  pose proof (round_nearest_even_bound (shr_m mrs1) (loc_of_shr_record mrs1)) as Hr.
  set (mr := round_nearest_even (shr_m mrs1) (loc_of_shr_record mrs1)) in *.
  assert (Hmr : 0 <= mr) by lia.
  pose proof (shr_fexp_bound mr e1 loc_Exact Hmr) as H2.
  destruct (shr_fexp prec emax mr e1 loc_Exact) as [mrs2 e2].
  destruct H2 as [[H2lo _] [_ He2]].
  assert (Hd : Zdigits2 mr <= 54).
  { apply Zdigits2_le; [lia|]. split; [lia|].
    change (2 ^ 54) with (2 * 2 ^ 53). lia. }
  assert (He1' : e1 <= 970).
  { pose proof (fexp_bounds (Zdigits2 mx + ex)) as [_ [_ [Hf | Hf]]]; lia. }
  assert (He2' : e2 <= 971).
  { pose proof (fexp_bounds (Zdigits2 mr + e1)) as [_ [_ [Hf | Hf]]]; lia. }
  destruct (shr_m mrs2) as [|m|m]; [left; reflexivity | | lia].
  right. destruct (Z.leb_spec e2 (emax - prec)) as [_ | Hbad].
  - eexists; eexists; reflexivity.
  - unfold emax, prec in Hbad. lia.
Qed.

(** ** Facts about Python's float operations *)

(** The literal [0.02] is the quotient 1/50 rounded to nearest. *)
Example float_0_02_is_one_fiftieth : int_truediv 1 50 = Ok float_0_02.
Proof. vm_compute. reflexivity. Qed.

(** Ties go to the even mantissa: [float(2**53 + 1) == 2.0**53], and an
    integer that rounds to 2^1024 does not convert. *)
Example float_of_int_ties :
  float_of_int (2 ^ 53 + 1) = Ok (S754_finite false 4503599627370496 1) /\
  float_of_int (2 ^ 1024 - 2 ^ 970 - 1) = Ok (S754_finite false 9007199254740991 971) /\
  float_of_int (2 ^ 1024 - 2 ^ 970) = Raise OverflowError.
Proof. repeat split; vm_compute; reflexivity. Qed.




Lemma int_truediv_ok (a b : Z) :
  0 <= a < b ->
  exists x, int_truediv a b = Ok x /\ finite_with_sign false x.
Proof.
  intros Hab. unfold int_truediv.
  destruct (Z.eqb_spec b 0) as [|_]; [lia|].
  destruct (Z.ltb_spec a 0); [lia|]. destruct (Z.ltb_spec b 0); [lia|].
  cbn [xorb].
  destruct (Z.eqb_spec a 0) as [|Ha].
  { eexists. split; [reflexivity | left; reflexivity]. }
  rewrite !Z.abs_eq by lia.
  unfold SFdiv_core_binary.
  set (e' := Z.min (fexp prec emax (Zdigits2 a + 0 - (Zdigits2 b + 0))) (0 - 0)).
  assert (He' : e' <= 0) by (unfold e'; lia).
  set (m' := match 0 - 0 - e' with
             | 0 => a
             | Z.pos _ => Z.shiftl a (0 - 0 - e')
             | Z.neg _ => 0
             end).
  assert (Hm' : m' = a * 2 ^ (- e')).
  { unfold m'. replace (0 - 0 - e') with (- e') by lia.
    destruct (- e') as [|p|p] eqn:Hs; [rewrite Z.pow_0_r; lia | | lia].
    apply Z.shiftl_mul_pow2. lia. }
  pose proof (Z.div_eucl_eq m' b ltac:(lia)) as Heq.
  pose proof (Z.mod_pos_bound m' b ltac:(lia)) as Hmod.
  unfold Z.modulo in Hmod.
  destruct (Z.div_eucl m' b) as [q r].
  pose proof (Z.pow_pos_nonneg 2 (- e') ltac:(lia) ltac:(lia)) as Hpp.
  assert (Hq : 0 <= q < 2 ^ (- e')) by nia.
  destruct (binary_round_aux_finite false q e' (new_location b r)) as [Hz | [m [e Hf]]].
  - lia.
  - lia.
  - pose proof (Zdigits2_le q (- e') ltac:(lia) Hq). lia.
  - rewrite Hz. eexists. split; [reflexivity | left; reflexivity].
  - rewrite Hf. eexists. split; [reflexivity | right; eauto].
Qed.

(** ** Facts about [Fraction] *)

(** The exact value of a finite non-negative float is a fraction in lowest
    terms with a non-negative numerator and a positive denominator. *)
Lemma Fraction_of_float_ok (x : spec_float) :
  finite_with_sign false x ->
  exists f,
    Fraction_of_float x = Ok f /\
    0 <= numerator f /\ 0 < denominator f /\
    Z.gcd (numerator f) (denominator f) = 1.
Proof.
  intros [-> | [m [e ->]]]; cbn [Fraction_of_float].
  - exists (0, 1). cbn [numerator denominator fst snd].
    split; [reflexivity | split; [lia | split; [lia | reflexivity]]].
  - destruct (Z.leb_spec 0 e) as [He | He].
    + eexists. split; [reflexivity|]. cbn [numerator denominator fst snd].
      pose proof (Z.pow_pos_nonneg 2 e ltac:(lia) He).
      split; [lia | split; [lia | apply Z.gcd_1_r]].
    + set (d := 2 ^ (- e)).
      assert (Hd : 0 < d) by (apply Z.pow_pos_nonneg; lia).
      set (g := Z.gcd (Z.pos m) d).
      assert (Hg : 0 < g).
      { pose proof (Z.gcd_nonneg (Z.pos m) d) as Hnn. fold g in Hnn.
        destruct (Z.eq_dec g 0) as [Hzero | Hnz]; [| lia].
        apply Z.gcd_eq_0_l in Hzero. lia. }
      eexists. split; [reflexivity|]. cbn [numerator denominator fst snd].
      destruct (Z.gcd_divide_l (Z.pos m) d) as [km Hkm].
      destruct (Z.gcd_divide_r (Z.pos m) d) as [kd Hkd].
      fold g in Hkm, Hkd.
      split; [| split].
      * apply Z.div_pos; lia.
      * rewrite Hkd, Z.div_mul by lia. nia.
      * apply Z.gcd_div_gcd; [lia | reflexivity].
Qed.

Section LimitDenominator.

Variable max_denominator : Z.
Variable D : Z.                       (* self._denominator *)
Hypothesis max_pos : 1 <= max_denominator.
Hypothesis D_large : max_denominator < D.


End LimitDenominator.




(** ** Facts about period extraction *)


Lemma int_base2_fold_bound (output : bitstring) :
  forall acc,
    0 <= acc ->
    0 <= fold_left (fun a (b : bool) => 2 * a + (if b then 1 else 0)) output acc
      < (acc + 1) * 2 ^ Z.of_nat (length output).
Proof.
  induction output as [|b rest IH]; intros acc Hacc; cbn [fold_left length].
  - change (2 ^ Z.of_nat 0) with 1. lia.
  - specialize (IH (2 * acc + (if b then 1 else 0)) ltac:(destruct b; lia)).
    rewrite Nat2Z.inj_succ, Z.pow_succ_r by lia.
    pose proof (Z.pow_pos_nonneg 2 (Z.of_nat (length rest)) ltac:(lia) ltac:(lia)).
    destruct b; nia.
Qed.

Lemma phase_of_ok (output : bitstring) :
  output <> [] ->
  exists x, phase_of output = Ok x /\ finite_with_sign false x.
Proof.
  intros Hne. unfold phase_of, int_base2.
  destruct output as [|b rest] eqn:Hout; [contradiction|].
  rewrite <- Hout. cbn [bind].
  apply int_truediv_ok.
  pose proof (int_base2_fold_bound output 0 ltac:(lia)). lia.
Qed.

Lemma py_min_spec (xs : list Z) :
  match py_min xs with
  | None => xs = []
  | Some m => In m xs /\ forall x, In x xs -> m <= x
  end.
Proof.
  induction xs as [|x rest IH]; cbn [py_min]; [reflexivity|].
  destruct (py_min rest) as [m|].
  - destruct IH as [Hin Hmin].
    destruct (Z.ltb_spec m x).
    + split; [right; exact Hin|].
      intros y [<- | Hy]; [lia | apply Hmin; exact Hy].
    + split; [left; reflexivity|].
      intros y [<- | Hy]; [lia | specialize (Hmin y Hy); lia].
  - subst rest. split; [left; reflexivity|].
    intros y [<- | []]. lia.
Qed.

Lemma qualifies_spec (N r : Z) :
  qualifies N r = true <-> r mod 2 = 0 /\ 1 < r < N.
Proof.
  unfold qualifies. rewrite !andb_true_iff, Z.eqb_eq, !Z.ltb_lt. tauto.
Qed.

Lemma py_min_least_qualifying (N : Z) (rs : list Z) :
  least_qualifying N rs (py_min (filter (qualifies N) rs)).
Proof.
  pose proof (py_min_spec (filter (qualifies N) rs)) as Hmin.
  destruct (py_min (filter (qualifies N) rs)) as [r|]; cbn [least_qualifying].
  - destruct Hmin as [Hin Hle].
    apply filter_In in Hin. destruct Hin as [Hin Hq].
    apply qualifies_spec in Hq. destruct Hq as [Heven Hrange].
    repeat split; try assumption; try lia.
    intros r' Hin' Heven' Hrange'. apply Hle.
    apply filter_In. split; [exact Hin'|]. apply qualifies_spec. tauto.
  - intros r' Hin' Hq. apply qualifies_spec in Hq.
    assert (Hf : In r' (filter (qualifies N) rs)) by (apply filter_In; tauto).
    rewrite Hmin in Hf. destruct Hf.
Qed.



(** ** Period extraction: the claims *)



(** The scenario of the specification: a histogram concentrated on the bin
    nearest to 1/6 gives period 6 for N = 21. *)
Example period_six :
  optimized_period_finding [(sixth_bits, SHOTS)] 21 = Ok (Some 6).
Proof. vm_compute. reflexivity. Qed.

(** A histogram whose only surviving phase is 0, with the out-of-range
    denominator 1, and one whose surviving phase 85/256 is nearest to 1/3,
    with an odd denominator. *)
Example no_candidate_out_of_range :
  optimized_period_finding [(repeat false 8, SHOTS)] 15 = Ok None.
Proof. vm_compute. reflexivity. Qed.

Example no_candidate_odd :
  optimized_period_finding
    [([false; true; false; true; false; true; false; true], SHOTS)] 15 = Ok None.
Proof. vm_compute. reflexivity. Qed.

(** C6 as stated fails: the threshold is 2% of the total, and added shots
    raise it.  With 82 and 4014 shots on phases 1/2 and 1/4 (threshold
    81.92) the period is 2; 50 more shots on a third outcome, below the
    threshold before and after, raise the threshold to 82.92, the first
    outcome drops out and the period becomes 4. *)
Lemma C6_counterexample_noise_changes_period :
  let cs := [(one_hot 0, 82); (one_hot 1, 4014)] in
  let noise := [(one_hot 2, 50)] in
  exists thr thr',
    threshold cs = Ok thr /\ threshold (cs ++ noise) = Ok thr' /\
    int_ge_float 50 thr = false /\ int_ge_float 50 thr' = false /\
    optimized_period_finding cs 15 = Ok (Some 2) /\
    optimized_period_finding (cs ++ noise) 15 = Ok (Some 4) /\
    optimized_period_finding (cs ++ noise) 15 <> optimized_period_finding cs 15.
Proof.
  cbv zeta. eexists. eexists.
  split; [vm_compute; reflexivity|].
  split; [vm_compute; reflexivity|].
  repeat split; try (vm_compute; reflexivity).
  vm_compute. discriminate.
Qed.

Lemma surviving_app (thr : spec_float) (cs extra : counts) :
  surviving thr (cs ++ extra) = surviving thr cs ++ surviving thr extra.
Proof. apply filter_app. Qed.

Lemma surviving_none (thr : spec_float) (extra : counts) :
  (forall oc, In oc extra -> int_ge_float (snd oc) thr = false) ->
  surviving thr extra = [].
Proof.
  induction extra as [|oc rest IH]; intros Hlow; [reflexivity|].
  cbn [surviving filter]. rewrite (Hlow oc (or_introl eq_refl)).
  apply IH. intros oc' Hin. apply Hlow. right. exact Hin.
Qed.

(** C6 (amended): entries appended to a histogram leave the result of
    [optimized_period_finding] unchanged when their counts are below the
    threshold of the extended histogram and every original entry is on the
    same side of that threshold as of the original one. *)
Theorem C6_noise_below_threshold (cs noise : counts) (N : Z)
    (thr thr' : spec_float) :
  threshold cs = Ok thr ->
  threshold (cs ++ noise) = Ok thr' ->
  (forall oc, In oc noise -> int_ge_float (snd oc) thr' = false) ->
  (forall oc, In oc cs -> int_ge_float (snd oc) thr' = int_ge_float (snd oc) thr) ->
  optimized_period_finding (cs ++ noise) N = optimized_period_finding cs N.
Proof.
  intros Hthr Hthr' Hnoise Hsame.
  unfold optimized_period_finding, candidates, phases.
  rewrite Hthr, Hthr'. cbn [bind].
  rewrite surviving_app, (surviving_none thr' noise Hnoise), app_nil_r.
  unfold surviving.
  rewrite (filter_ext_in (fun oc => int_ge_float (snd oc) thr')
                         (fun oc => int_ge_float (snd oc) thr) cs Hsame).
  reflexivity.
Qed.

Lemma C6_noise_below_threshold_witness :
  optimized_period_finding ([(one_hot 0, 100); (one_hot 1, 3996)] ++ [(one_hot 2, 50)]) 15
  = optimized_period_finding [(one_hot 0, 100); (one_hot 1, 3996)] 15.
Proof.
  apply (C6_noise_below_threshold
           [(one_hot 0, 100); (one_hot 1, 3996)] [(one_hot 2, 50)] 15
           (S754_finite false 5764607523034235 (-46))
           (S754_finite false 5834976267211899 (-46))).
  - vm_compute. reflexivity.
  - vm_compute. reflexivity.
  - intros oc [<- | []]. vm_compute. reflexivity.
  - intros oc [<- | [<- | []]]; vm_compute; reflexivity.
Defined.

(** * Further properties of the code *)

(** ** Modular exponentiation on every integer input *)

Section ModExpAnyModulus.

Variable modulus : Z.
Hypothesis modulus_nonzero : modulus <> 0.

Lemma square_pow_mod (base k : Z) :
  0 <= k ->
  ((base * base) mod modulus) ^ k mod modulus = base ^ (2 * k) mod modulus.
Proof.
  intros Hk. rewrite Z.mod_pow_l, Z.pow_mul_r by lia.
  f_equal. f_equal. ring.
Qed.

Lemma pow_halves (base exponent : Z) :
  0 <= exponent ->
  base ^ exponent = base ^ (exponent mod 2) * base ^ (2 * (exponent / 2)).
Proof.
  intros He.
  pose proof (Z.mod_pos_bound exponent 2 ltac:(lia)).
  pose proof (Z.div_pos exponent 2 He ltac:(lia)).
  rewrite <- Z.pow_add_r by lia. f_equal.
  pose proof (Z.div_mod exponent 2 ltac:(lia)). lia.
Qed.

(** Once [result] is a residue, the loop multiplies it by the power. *)
Lemma modexp_loop_residue :
  forall fuel result base exponent,
    0 <= exponent < 2 ^ Z.of_nat fuel ->
    result mod modulus = result ->
    modexp_loop fuel result base exponent modulus
    = Ok ((result * base ^ exponent) mod modulus).
Proof.
  induction fuel as [|fuel IH]; intros result base exponent He Hr;
    cbn [modexp_loop]; destruct (Z.gtb_spec exponent 0) as [Hpos | Hzero].
  - change (2 ^ Z.of_nat 0) with 1 in He. lia.
  - replace exponent with 0 by lia. rewrite Z.pow_0_r, Z.mul_1_r, Hr. reflexivity.
  - assert (Hdiv : 0 <= exponent / 2 < 2 ^ Z.of_nat fuel).
    { split; [apply Z.div_pos; lia|].
      apply Z.div_lt_upper_bound; [lia|].
      rewrite Nat2Z.inj_succ, Z.pow_succ_r in He by lia. lia. }
    pose proof (Z.mod_pos_bound exponent 2 ltac:(lia)) as Hbit.
    rewrite (pow_halves base exponent) by lia.
    destruct (Z.eqb_spec (exponent mod 2) 1) as [Hodd | Heven].
    + rewrite IH; [| exact Hdiv | apply Z.mod_mod; exact modulus_nonzero].
      f_equal. rewrite Hodd, Z.pow_1_r.
      rewrite Z.mul_mod, Z.mod_mod, square_pow_mod by lia.
      rewrite <- Z.mul_mod by lia. f_equal. ring.
    + rewrite IH; [| exact Hdiv | exact Hr].
      f_equal. replace (exponent mod 2) with 0 by lia.
      rewrite Z.pow_0_r, Z.mul_1_l.
      rewrite Z.mul_mod, square_pow_mod by lia.
      rewrite <- Z.mul_mod by lia. reflexivity.
  - replace exponent with 0 by lia. rewrite Z.pow_0_r, Z.mul_1_r, Hr. reflexivity.
Qed.

(** From the initial [result = 1], which need not be a residue, with at least
    one turn to go. *)
Lemma modexp_loop_from_one :
  forall fuel base exponent,
    1 <= exponent < 2 ^ Z.of_nat fuel ->
    modexp_loop fuel 1 base exponent modulus = Ok (base ^ exponent mod modulus).
Proof.
  induction fuel as [|fuel IH]; intros base exponent He; cbn [modexp_loop].
  - change (2 ^ Z.of_nat 0) with 1 in He. lia.
  - destruct (Z.gtb_spec exponent 0) as [_ | Hzero]; [| lia].
    assert (Hdiv : 0 <= exponent / 2 < 2 ^ Z.of_nat fuel).
    { split; [apply Z.div_pos; lia|].
      apply Z.div_lt_upper_bound; [lia|].
      rewrite Nat2Z.inj_succ, Z.pow_succ_r in He by lia. lia. }
    pose proof (Z.mod_pos_bound exponent 2 ltac:(lia)) as Hbit.
    rewrite (pow_halves base exponent) by lia.
    destruct (Z.eqb_spec (exponent mod 2) 1) as [Hodd | Heven].
    + rewrite modexp_loop_residue;
        [| exact Hdiv | apply Z.mod_mod; exact modulus_nonzero].
      f_equal. rewrite Hodd, Z.pow_1_r, Z.mul_1_l.
      rewrite Z.mul_mod, Z.mod_mod, square_pow_mod by lia.
      rewrite <- Z.mul_mod by lia. reflexivity.
    + assert (Hhalf : 1 <= exponent / 2).
      { apply Z.div_le_lower_bound; [lia|].
        pose proof (Z.div_mod exponent 2 ltac:(lia)). lia. }
      rewrite IH by lia.
      f_equal. replace (exponent mod 2) with 0 by lia.
      rewrite Z.pow_0_r, Z.mul_1_l. apply square_pow_mod. lia.
Qed.

End ModExpAnyModulus.

(** X1: [modular_exponentiation] on every triple of integers.  A zero
    modulus raises ZeroDivisionError.  Otherwise an exponent below 1 gives 1
    (no modular inverse is computed, and 1 is not reduced), and an exponent
    of at least 1 gives [base ^ exponent % modulus] with Python's sign
    convention for [%], whatever the sign or size of the base and the sign
    of the modulus: the result is in [0, modulus) for a positive modulus and
    in (modulus, 0] for a negative one. *)
Theorem modular_exponentiation_all_inputs (base exponent modulus : Z) :
  (modulus = 0 ->
   modular_exponentiation base exponent modulus = Raise ZeroDivisionError) /\
  (modulus <> 0 -> exponent <= 0 ->
   modular_exponentiation base exponent modulus = Ok 1) /\
  (modulus <> 0 -> 1 <= exponent ->
   modular_exponentiation base exponent modulus = Ok (base ^ exponent mod modulus) /\
   (0 < modulus -> 0 <= base ^ exponent mod modulus < modulus) /\
   (modulus < 0 -> modulus < base ^ exponent mod modulus <= 0)).
Proof.
  unfold modular_exponentiation. split; [| split].
  - intros ->. reflexivity.
  - intros Hm He. destruct (Z.eqb_spec modulus 0); [contradiction|].
    unfold bit_fuel. cbn [modexp_loop].
    destruct (Z.gtb_spec exponent 0); [lia | reflexivity].
  - intros Hm He. destruct (Z.eqb_spec modulus 0); [contradiction|].
    split; [| split].
    + rewrite modexp_loop_from_one.
      * f_equal. apply Z.mod_pow_l.
      * exact Hm.
      * split; [exact He | apply bit_fuel_enough; lia].
    + intros Hpos. apply Z.mod_pos_bound. exact Hpos.
    + intros Hneg. apply Z.mod_neg_bound. exact Hneg.
Qed.

Lemma modular_exponentiation_all_inputs_witness :
  modular_exponentiation 5 7 0 = Raise ZeroDivisionError /\
  modular_exponentiation 5 (-1) 7 = Ok 1 /\
  modular_exponentiation (-5) 3 (-7) = Ok ((-5) ^ 3 mod (-7)) /\
  modular_exponentiation 9 4 1 = Ok (9 ^ 4 mod 1).
Proof.
  destruct (modular_exponentiation_all_inputs 5 7 0) as [Hzero _].
  destruct (modular_exponentiation_all_inputs 5 (-1) 7) as [_ [Hneg _]].
  destruct (modular_exponentiation_all_inputs (-5) 3 (-7)) as [_ [_ Hm]].
  destruct (modular_exponentiation_all_inputs 9 4 1) as [_ [_ Hone]].
  split; [apply Hzero; reflexivity|].
  split; [apply Hneg; lia|].
  split; [apply Hm; lia | apply Hone; lia].
Defined.

(** ** The width parameter and the circuit as built *)

Lemma size_nat_log2 (p : positive) :
  Z.of_nat (Pos.size_nat p) = Z.log2 (Z.pos p) + 1.
Proof.
  induction p as [p IH | p IH |]; cbn [Pos.size_nat]; try reflexivity;
    rewrite Nat2Z.inj_succ, IH.
  - change (Z.pos p~1) with (2 * Z.pos p + 1).
    rewrite Z.log2_succ_double by lia. lia.
  - change (Z.pos p~0) with (2 * Z.pos p).
    rewrite Z.log2_double by lia. lia.
Qed.

(** [len(bin(N)) - 2] is the bit length of a positive N. *)
Lemma bit_length_spec (N : Z) :
  1 <= N ->
  Z.of_nat (length (bin N) - 2) = Z.log2 N + 1.
Proof.
  intros HN. destruct N as [|p|p]; try lia.
  cbn [bin length Nat.sub]. rewrite length_rev, length_pos_bits, Nat.sub_0_r.
  apply size_nat_log2.
Qed.

(** X2: for N >= 1 the width parameter [n = len(bin(N)) - 2] is the bit
    length of N, [2^(n-1) <= N < 2^n]; the sign of a negative N is counted as
    one more bit, and N = 0 gives n = 1. *)
Theorem shor_n_is_bit_length (N : Z) :
  let n := Z.of_nat (shor_n (LargeNumberShorCircuit_init N)) in
  (1 <= N -> n = Z.log2 N + 1 /\ 2 ^ (n - 1) <= N < 2 ^ n) /\
  (N = 0 -> n = 1) /\
  (N < 0 -> n = Z.log2 (- N) + 2).
Proof.
  cbn [LargeNumberShorCircuit_init shor_n]. split; [| split].
  - intros HN. rewrite bit_length_spec by exact HN.
    split; [reflexivity|].
    replace (Z.log2 N + 1 - 1) with (Z.log2 N) by lia.
    pose proof (Z.log2_spec N ltac:(lia)) as Hspec.
    replace (Z.log2 N + 1) with (Z.succ (Z.log2 N)) by lia. exact Hspec.
  - intros ->. reflexivity.
  - intros HN. destruct N as [|p|p]; try lia.
    cbn [bin length Z.opp Nat.sub]. rewrite length_rev, length_pos_bits.
    rewrite Nat2Z.inj_succ, size_nat_log2. lia.
Qed.

Lemma shor_n_is_bit_length_witness :
  Z.of_nat (shor_n (LargeNumberShorCircuit_init 21)) = Z.log2 21 + 1 /\
  Z.of_nat (shor_n (LargeNumberShorCircuit_init (-21))) = Z.log2 21 + 2.
Proof.
  destruct (shor_n_is_bit_length 21) as [Hpos _].
  destruct (shor_n_is_bit_length (-21)) as [_ [_ Hneg]].
  split; [apply Hpos; lia | apply Hneg; lia].
Defined.

(** X3: where the qubit budget holds.  For N >= 1 the circuit that
    [create_quantum_circuits] allocates has [3n + 2] qubits (control 2n,
    target n, ancilla 2), whatever [total_qubits] says; that number stays
    within MAX_QUBITS, and agrees with the stored [total_qubits], exactly
    when N < 2^42. *)
Theorem allocated_qubits_within_budget_iff (N a : Z) :
  1 <= N ->
  let gen := LargeNumberShorCircuit_init N in
  let allocated := fst (create_quantum_circuits gen a) in
  num_qubits allocated = 3 * Z.of_nat (shor_n gen) + 2 /\
  (num_qubits allocated <= MAX_QUBITS <-> N < 2 ^ 42) /\
  (num_qubits allocated = total_qubits gen <-> N < 2 ^ 42).
Proof.
  intros HN. cbv zeta.
  rewrite (num_qubits_uncapped (LargeNumberShorCircuit_init N) a).
  split; [reflexivity|].
  cbn [LargeNumberShorCircuit_init shor_n total_qubits].
  rewrite bit_length_spec by lia. unfold MAX_QUBITS.
  assert (Hlog : Z.log2 N < 42 <-> N < 2 ^ 42)
    by (symmetry; apply Z.log2_lt_pow2; lia).
  pose proof (Z.log2_nonneg N). split; split; intros H; try (apply Hlog in H); lia.
Qed.

Lemma allocated_qubits_within_budget_iff_witness :
  num_qubits (fst (create_quantum_circuits
                     (LargeNumberShorCircuit_init (2 ^ 42 - 1)) 2)) <= MAX_QUBITS /\
  ~ num_qubits (fst (create_quantum_circuits
                       (LargeNumberShorCircuit_init (2 ^ 42)) 2)) <= MAX_QUBITS.
Proof.
  destruct (allocated_qubits_within_budget_iff (2 ^ 42 - 1) 2 ltac:(lia))
    as [_ [Hbelow _]].
  destruct (allocated_qubits_within_budget_iff (2 ^ 42) 2 ltac:(lia))
    as [_ [Hat _]].
  split; [apply Hbelow; lia | intros Hle; apply Hat in Hle; lia].
Defined.

Lemma in_flip_gates (n : nat) (ctrl : qubit) (r : Z) (g : gate) :
  In g (flip_gates n ctrl r) <->
  exists j, (j < n)%nat /\ Z.testbit r (Z.of_nat j) = true /\
            g = CCX (ancilla, 0%nat) ctrl (target, j).
Proof.
  unfold flip_gates. rewrite in_flat_map. split.
  - intros [j [Hj Hin]]. apply in_seq in Hj.
    destruct (Z.testbit r (Z.of_nat j)) eqn:Hbit; [| destruct Hin].
    destruct Hin as [<- | []]. exists j. repeat split; [lia | exact Hbit].
  - intros [j [Hj [Hbit ->]]]. exists j. split; [apply in_seq; lia|].
    rewrite Hbit. left. reflexivity.
Qed.

(** X4: what the oracle encodes.  For N >= 2, among the gates that
    [create_quantum_circuits] has appended to its circuit when the call
    ends, the gate [ccx(ancilla[0], control[i], target[j])] occurs exactly
    when [i] is a control position, [j] a target position, and bit [j] of
    [a^(2^i) mod N] is set; no other doubly controlled gate occurs. *)
Theorem oracle_flips_are_residue_bits (N a : Z) (q1 q2 t : qubit) :
  2 <= N ->
  let built := fst (create_quantum_circuits (LargeNumberShorCircuit_init N) a) in
  In (CCX q1 q2 t) (gates built) <->
  exists i j,
    (i < control_size built)%nat /\ (j < target_size built)%nat /\
    q1 = (ancilla, 0%nat) /\ q2 = (control, i) /\ t = (target, j) /\
    Z.testbit (a ^ 2 ^ Z.of_nat i mod N) (Z.of_nat j) = true.
Proof.
  intros HN. cbv zeta.
  rewrite (create_quantum_circuits_closed_form N a HN).
  cbn [fst gates control_size target_size].
  set (n := (length (bin N) - 2)%nat).
  unfold appended_gates. rewrite !in_app_iff, in_map_iff, in_flat_map.
  split.
  - intros [[q [Hq _]] | [i [Hi Hin]]]; try discriminate.
    apply in_seq in Hi. unfold block_gates in Hin.
    destruct Hin as [Hcx | Hin]; [discriminate|].
    apply in_app_iff in Hin. destruct Hin as [Hin | [Hcx | []]]; [| discriminate].
    apply in_flip_gates in Hin. destruct Hin as [j [Hj [Hbit [= -> -> ->]]]].
    exists i, j. repeat split; try lia. exact Hbit.
  - intros [i [j [Hi [Hj [-> [-> [-> Hbit]]]]]]].
    right. exists i. split; [apply in_seq; lia|].
    unfold block_gates. right. apply in_app_iff. left.
    apply in_flip_gates. exists j. repeat split; [exact Hj | exact Hbit].
Qed.

Lemma oracle_flips_are_residue_bits_witness :
  In (CCX (ancilla, 0%nat) (control, 1%nat) (target, 2%nat))
     (gates (fst (create_quantum_circuits (LargeNumberShorCircuit_init 5) 2))).
Proof.
  apply (oracle_flips_are_residue_bits 5 2); [lia|].
  exists 1%nat, 2%nat.
  rewrite (create_quantum_circuits_closed_form 5 2) by lia.
  repeat split; cbn; lia.
Defined.

Lemma block_gates_in_range (N : Z) (n : nat) (a : Z) (c : circuit) (i : nat) :
  control_size c = (2 * n)%nat -> target_size c = n -> ancilla_size c = 2%nat ->
  (i < 2 * n)%nat ->
  Forall (gate_in_range c) (block_gates N n a i).
Proof.
  intros Hcs Hts Has Hi.
  assert (Hcx : gate_in_range c (CX (control, i) (ancilla, 0%nat))).
  { cbn. lia. }
  unfold block_gates. constructor; [exact Hcx|].
  apply Forall_app. split; [| constructor; [exact Hcx | constructor]].
  apply Forall_forall. intros g Hg. apply in_flip_gates in Hg.
  destruct Hg as [j [Hj [_ ->]]]. cbn. lia.
Qed.

(** X5: the call written out.  For N >= 2 with bit length n,
    [create_quantum_circuits] allocates registers of widths 2n, n, 2 and 2n,
    appends one H per control qubit in order, then for each control qubit
    [i] in order [cx(control[i], ancilla[0])], the flips for the set bits of
    [a^(2^i) mod N] from the lowest bit up, and [cx(control[i], ancilla[0])]
    again, and then raises NameError at the measurement; no measurement is
    appended and nothing is returned.  Every gate appended acts on qubits
    that exist in the registers. *)
Theorem create_quantum_circuits_written_out (N a : Z) :
  2 <= N ->
  let n := (length (bin N) - 2)%nat in
  let built := mkCircuit (2 * n) n 2 (2 * n) (appended_gates N n a) in
  create_quantum_circuits (LargeNumberShorCircuit_init N) a
  = (built, Raise NameError) /\
  Forall (gate_in_range built) (gates built).
Proof.
  intros HN n built.
  split; [apply create_quantum_circuits_closed_form; exact HN|].
  subst built. cbn [gates]. unfold appended_gates.
  apply Forall_app. split.
  - apply Forall_forall. intros g Hg. apply in_map_iff in Hg.
    destruct Hg as [q [<- Hq]]. unfold reg_qubits in Hq.
    apply in_map_iff in Hq. destruct Hq as [j [<- Hj]]. apply in_seq in Hj.
    cbn. lia.
  - apply Forall_forall. intros g Hg. apply in_flat_map in Hg.
    destruct Hg as [i [Hi Hg]]. apply in_seq in Hi.
    pose proof (block_gates_in_range N n a
                  (mkCircuit (2 * n) n 2 (2 * n) (appended_gates N n a)) i
                  eq_refl eq_refl eq_refl ltac:(lia)) as Hall.
    rewrite Forall_forall in Hall. apply Hall. exact Hg.
Qed.

Lemma create_quantum_circuits_written_out_witness :
  create_quantum_circuits (LargeNumberShorCircuit_init 5) 2
  = (mkCircuit 6 3 2 6 (appended_gates 5 3 2), Raise NameError) /\
  Forall (gate_in_range (mkCircuit 6 3 2 6 (appended_gates 5 3 2)))
         (appended_gates 5 3 2).
Proof.
  apply (create_quantum_circuits_written_out 5 2). lia.
Defined.

(** ** The gateway with any retry ceiling *)

Lemma retry_loop_seq (run : submission) :
  forall n s,
    let f := leading_failures run (seq s n) in
    let t := fst (retry_loop run (seq s n)) in
    let r := snd (retry_loop run (seq s n)) in
    (f <= n)%nat /\
    total_sleep t = 2 ^ Z.of_nat (s + f) - 2 ^ Z.of_nat s /\
    submissions t = Nat.min (S f) n /\
    (f = n -> r = Ok []) /\
    (f < n -> r = run (s + f)%nat /\ forall e, r <> Raise e)%nat.
Proof.
  induction n as [|n IH]; intros s; cbn [seq leading_failures retry_loop].
  - cbn [fst snd total_sleep submissions]. rewrite Nat.add_0_r.
    repeat split; try lia; try reflexivity.
  - specialize (IH (S s)). cbv zeta in IH.
    destruct (run s) as [c | e |] eqn:Hs.
    + cbn [fst snd total_sleep submissions]. rewrite Nat.add_0_r, Hs.
      repeat split; try lia; try reflexivity; discriminate.
    + destruct (retry_loop run (seq (S s) n)) as [t r].
      cbn [fst snd total_sleep submissions] in *.
      destruct IH as [Hle [Hsleep [Hsub [Hall Hfirst]]]].
      replace (s + S (leading_failures run (seq (S s) n)))%nat
        with (S s + leading_failures run (seq (S s) n))%nat by lia.
      rewrite Hsleep, Hsub.
      repeat split; try lia.
      * rewrite (Nat2Z.inj_succ s), Z.pow_succ_r by lia. lia.
      * intros Hf. apply Hall. lia.
      * apply Hfirst. lia.
      * apply Hfirst. lia.
    + cbn [fst snd total_sleep submissions]. rewrite Nat.add_0_r, Hs.
      repeat split; try lia; try reflexivity; discriminate.
Qed.

(** X6: [execute_with_retry] for any [max_retries].  With [f] the number of
    attempts that fail before the first one that does not, capped at
    [max_retries]: the circuit is submitted [min (f + 1) max_retries] times,
    the sleeps add up to [2^f - 1] time units, the call never raises, and it
    returns the empty histogram when all [max_retries] attempts failed and
    the reply of attempt [f] otherwise. *)
Theorem execute_with_retry_any_ceiling (run : submission) (max_retries : nat) :
  let f := leading_failures run (seq 0 max_retries) in
  let t := fst (execute_with_retry run max_retries) in
  let r := snd (execute_with_retry run max_retries) in
  (f <= max_retries)%nat /\
  submissions t = Nat.min (S f) max_retries /\
  total_sleep t = 2 ^ Z.of_nat f - 1 /\
  (forall e, r <> Raise e) /\
  (f = max_retries -> r = Ok []) /\
  ((f < max_retries)%nat -> r = run f).
Proof.
  cbv zeta. unfold execute_with_retry.
  destruct (retry_loop_seq run max_retries 0) as [Hle [Hsleep [Hsub [Hall Hfirst]]]].
  cbn [Nat.add] in *. change (2 ^ Z.of_nat 0) with 1 in Hsleep.
  repeat split; try assumption.
  - intros e.
    destruct (Nat.eq_dec (leading_failures run (seq 0 max_retries)) max_retries)
      as [Heq | Hne].
    + rewrite (Hall Heq). discriminate.
    + apply Hfirst. lia.
  - intros Hlt. apply Hfirst. exact Hlt.
Qed.

Lemma execute_with_retry_any_ceiling_witness :
  snd (execute_with_retry (flaky_submission 4 [(sixth_bits, SHOTS)]) 6)
  = Ok [(sixth_bits, SHOTS)] /\
  total_sleep (fst (execute_with_retry (flaky_submission 4 [(sixth_bits, SHOTS)]) 6))
  = 2 ^ 4 - 1.
Proof.
  destruct (execute_with_retry_any_ceiling
              (flaky_submission 4 [(sixth_bits, SHOTS)]) 6)
    as [_ [_ [Hsleep [_ [_ Hfirst]]]]].
  split.
  - rewrite Hfirst; [reflexivity | cbn; lia].
  - exact Hsleep.
Defined.

(** X7: a batch keeps its length and its order.  When [execute_circuits]
    returns, it returns one histogram per circuit, the one at position [i]
    being what the retry loop of circuit [i] returned; and it does return
    unless some backend call never comes back. *)
Theorem execute_circuits_keeps_order (be : backend) (circuits : list circuit) :
  (forall rs,
     snd (execute_circuits be circuits) = Ok rs ->
     length rs = length circuits /\
     forall i c, nth_error circuits i = Some c ->
       exists r, nth_error rs i = Some r /\
                 snd (execute_with_retry (be i c) default_max_retries) = Ok r) /\
  ((forall i c k, be i c k <> Running) ->
   exists rs, snd (execute_circuits be circuits) = Ok rs).
Proof.
  unfold execute_circuits. cbn [snd]. split.
  - intros rs Hrs. apply mapM_Forall2 in Hrs.
    split.
    + apply Forall2_length in Hrs.
      rewrite length_map in Hrs. unfold enumerate in Hrs.
      rewrite length_combine, length_seq, Nat.min_id in Hrs. congruence.
    + intros i c Hi.
      apply (Forall2_nth_error_l _ _ _ Hrs i
               (execute_with_retry (be i c) default_max_retries)).
      rewrite nth_error_map. unfold enumerate.
      rewrite (nth_error_combine_seq circuits 0 i c Hi). reflexivity.
  - intros Hbe. destruct (mapM_ok snd
        (map (fun ic => execute_with_retry (be (fst ic) (snd ic)) default_max_retries)
             (enumerate circuits))) as [rs [Hrs _]].
    + intros job Hin. apply in_map_iff in Hin. destruct Hin as [[i c] [<- _]].
      apply execute_with_retry_returns. intros k. apply Hbe.
    + exists rs. exact Hrs.
Qed.

Lemma execute_circuits_keeps_order_witness :
  exists rs, snd (execute_circuits failing_backend
                    [mkCircuit 6 3 2 6 []; mkCircuit 6 3 2 6 []]) = Ok rs.
Proof.
  apply (execute_circuits_keeps_order failing_backend
           [mkCircuit 6 3 2 6 []; mkCircuit 6 3 2 6 []]).
  intros i c k. discriminate.
Defined.

(** ** Denominators stay within the bound *)

Lemma limit_loop_denominators (max_denominator : Z) :
  forall fuel p0 q0 p1 q1 n d p0' q0' p1' q1' n' d',
    0 <= q0 <= max_denominator -> 0 <= q1 <= max_denominator ->
    0 <= n -> 0 <= d ->
    limit_loop fuel p0 q0 p1 q1 n d max_denominator
    = Ok (p0', q0', p1', q1', n', d') ->
    0 <= q0' <= max_denominator /\ 0 < q1' <= max_denominator.
Proof.
  induction fuel as [|fuel IH];
    intros p0 q0 p1 q1 n d p0' q0' p1' q1' n' d' Hq0 Hq1 Hn Hd;
    cbn [limit_loop];
    destruct (Z.eqb_spec d 0) as [|Hd0]; try discriminate;
    pose proof (Z.div_pos n d Hn ltac:(lia)) as Ha;
    destruct (Z.gtb_spec (q0 + n / d * q1) max_denominator) as [Hbreak | Hgo];
    try discriminate.
  - intros [= <- <- <- <- <- <-]. nia.
  - intros [= <- <- <- <- <- <-]. nia.
  - apply IH; try lia; try nia.
    pose proof (Z.mod_pos_bound n d ltac:(lia)) as Hr.
    rewrite Z.mod_eq in Hr by lia. lia.
Qed.

Lemma limit_denominator_bound (f g : Fraction) (N : Z) :
  0 <= numerator f -> 0 < denominator f ->
  limit_denominator f N = Ok g ->
  1 <= denominator g <= N.
Proof.
  destruct f as [n d]. cbn [numerator denominator fst snd].
  intros Hn Hd. unfold limit_denominator. cbn [numerator denominator fst snd].
  destruct (Z.ltb_spec N 1) as [|HN]; [discriminate|].
  destruct (Z.leb_spec d N) as [Hsmall | Hlarge].
  - intros [= <-]. cbn [denominator snd]. lia.
  - destruct (limit_loop (limit_fuel n d) 0 1 1 0 n d N)
      as [[[[[[p0 q0] p1] q1] n'] d'] | |] eqn:Hloop; cbn [bind]; try discriminate.
    apply limit_loop_denominators in Hloop; try lia.
    destruct Hloop as [Hq0 Hq1].
    destruct (Z.eqb_spec q1 0); [lia|].
    pose proof (Z.mul_div_le (N - q0) q1 ltac:(lia)) as Hk.
    pose proof (Z.div_pos (N - q0) q1 ltac:(lia) ltac:(lia)) as Hk0.
    assert (Hk1 : q0 = 0 -> 1 <= (N - q0) / q1).
    { intros ->. apply Z.div_le_lower_bound; lia. }
    destruct (_ <=? _); intros [= <-]; cbn [denominator snd]; [lia|].
    split; [| lia].
    destruct (Z.eq_dec q0 0) as [H0 | H0]; [specialize (Hk1 H0); nia | nia].
Qed.

Lemma phase_of_finite (output : bitstring) (x : spec_float) :
  phase_of output = Ok x -> finite_with_sign false x.
Proof.
  intros Hx. destruct output as [|b rest] eqn:Hout; [discriminate|].
  destruct (phase_of_ok (b :: rest) ltac:(discriminate)) as [x' [Hx' Hfin]].
  rewrite Hx in Hx'. injection Hx' as <-. exact Hfin.
Qed.

(** X8: every candidate period lies between 1 and N.  Whenever the
    candidates of a histogram are computed, each of them, a denominator
    [Fraction(phase).limit_denominator(N).denominator], satisfies
    [1 <= r <= N]; so the test [1 < r < N] can only reject 1 and N. *)
Theorem candidates_within_bound (cs : counts) (N : Z) (rs : list Z) :
  candidates cs N = Ok rs ->
  Forall (fun r => 1 <= r <= N) rs.
Proof.
  unfold candidates, phases. intros Hrs.
  destruct (threshold cs) as [thr| |]; cbn [bind] in Hrs; try discriminate.
  destruct (mapM (fun oc => phase_of (fst oc)) (surviving thr cs))
    as [ps| |] eqn:Hps; cbn [bind] in Hrs; try discriminate.
  apply mapM_Forall2 in Hps. apply mapM_Forall2 in Hrs.
  assert (Hfin : Forall (finite_with_sign false) ps).
  { clear - Hps. induction Hps as [|oc x l l' Hx _ IH]; constructor;
      [exact (phase_of_finite _ _ Hx) | exact IH]. }
  clear Hps. revert Hfin.
  induction Hrs as [|x r l l' Hxr _ IH]; intros Hfin; constructor.
  - inversion Hfin as [|? ? Hx _]; subst.
    unfold candidate_of in Hxr.
    destruct (Fraction_of_float_ok x Hx) as [f [Hf [Hn [Hd _]]]].
    rewrite Hf in Hxr. cbn [bind] in Hxr.
    destruct (limit_denominator f N) as [g| |] eqn:Hg; cbn [bind] in Hxr;
      try discriminate.
    injection Hxr as <-. exact (limit_denominator_bound f g N Hn Hd Hg).
  - apply IH. inversion Hfin; assumption.
Qed.

Lemma candidates_within_bound_witness :
  Forall (fun r => 1 <= r <= 15) [2; 4].
Proof.
  apply (candidates_within_bound [(one_hot 0, 82); (one_hot 1, 4014)] 15 [2; 4]).
  vm_compute. reflexivity.
Defined.

(** ** The factor test on a genuine period *)

(** A square root of 1 modulo N other than 1 and N - 1 shares a proper
    factor with N. *)
Lemma square_root_of_one_splits (N x : Z) :
  2 <= N -> 0 <= x < N ->
  (x * x) mod N = 1 -> x <> 1 -> x <> N - 1 ->
  1 < Z.gcd (x - 1) N < N.
Proof.
  intros HN Hx Hsq H1 Hm1.
  assert (Hx0 : x <> 0).
  { intros ->. rewrite Z.mul_0_r, Z.mod_0_l in Hsq by lia. discriminate. }
  pose proof (Z.gcd_nonneg (x - 1) N) as Hg0.
  pose proof (Z.gcd_divide_l (x - 1) N) as Hgl.
  assert (Hgle : Z.gcd (x - 1) N <= x - 1) by (apply Z.divide_pos_le; [lia | exact Hgl]).
  split; [| lia].
  destruct (Z.eq_dec (Z.gcd (x - 1) N) 0) as [Hz | Hnz].
  { apply Z.gcd_eq_0_r in Hz. lia. }
  destruct (Z.eq_dec (Z.gcd (x - 1) N) 1) as [Hone | Hne]; [| lia].
  exfalso.
  assert (Hdiv : (N | (x - 1) * (x + 1))).
  { exists ((x * x) / N).
    pose proof (Z.div_mod (x * x) N ltac:(lia)) as Hdm. rewrite Hsq in Hdm. lia. }
  assert (Hdiv' : (N | x + 1)).
  { apply Z.gauss with (m := x - 1); [exact Hdiv|].
    rewrite Z.gcd_comm. exact Hone. }
  apply Z.divide_pos_le in Hdiv'; lia.
Qed.

Lemma optimized_period_finding_some (cs : counts) (N r : Z) :
  optimized_period_finding cs N = Ok (Some r) -> r mod 2 = 0 /\ 1 < r < N.
Proof.
  unfold optimized_period_finding.
  destruct (candidates cs N) as [rs| |]; cbn [bind]; try discriminate.
  intros [= Hmin].
  pose proof (py_min_least_qualifying N rs) as Hleast.
  rewrite Hmin in Hleast. cbn [least_qualifying] in Hleast. tauto.
Qed.

(** X10: the factor test succeeds on a genuine period.  If the period [r]
    extracted for base [a] satisfies [a^r = 1 (mod N)] and
    [x = a^(r/2) mod N] is neither 1 nor N - 1, the loop over the round's
    results returns [(gcd(x-1, N), N // gcd(x-1, N))] at that base, a pair of
    proper factors, without looking at the bases after it. *)
Theorem factor_test_succeeds_on_genuine_period (N a r : Z) (cs : counts)
    (rest : list (Z * counts)) :
  cs <> [] ->
  optimized_period_finding cs N = Ok (Some r) ->
  a ^ r mod N = 1 ->
  a ^ (r / 2) mod N <> 1 ->
  a ^ (r / 2) mod N <> N - 1 ->
  1 < Z.gcd (a ^ (r / 2) mod N - 1) N < N /\
  period_phase N ((a, cs) :: rest)
  = Ok (Some (Z.gcd (a ^ (r / 2) mod N - 1) N,
              N / Z.gcd (a ^ (r / 2) mod N - 1) N)).
Proof.
  intros Hne Hperiod Hord H1 Hm1.
  destruct (optimized_period_finding_some cs N r Hperiod) as [Heven Hrange].
  assert (Hhalf : 1 <= r / 2) by (apply Z.div_le_lower_bound; lia).
  set (x := a ^ (r / 2) mod N) in *.
  assert (Hx : 0 <= x < N) by (apply Z.mod_pos_bound; lia).
  assert (Hsq : (x * x) mod N = 1).
  { unfold x. rewrite <- Z.mul_mod by lia.
    rewrite <- Z.pow_add_r by lia.
    replace (r / 2 + r / 2) with r; [exact Hord|].
    pose proof (Z.div_mod r 2 ltac:(lia)). lia. }
  pose proof (square_root_of_one_splits N x ltac:(lia) Hx Hsq H1 Hm1) as Hg.
  split; [exact Hg|].
  cbn [period_phase]. destruct cs as [|oc cs']; [contradiction|].
  rewrite Hperiod. cbn [bind].
  destruct (Z.eqb_spec r 0); [lia|].
  destruct (Z.eqb_spec (r mod 2) 0); [| contradiction].
  cbn [negb andb].
  rewrite modular_exponentiation_spec by lia. cbn [bind]. fold x.
  cbn [factor_scan].
  apply nontrivial_spec in Hg. rewrite Hg. reflexivity.
Qed.

Lemma factor_test_succeeds_on_genuine_period_witness :
  1 < Z.gcd (2 ^ (6 / 2) mod 21 - 1) 21 < 21 /\
  period_phase 21 [(2, [(sixth_bits, SHOTS)])]
  = Ok (Some (Z.gcd (2 ^ (6 / 2) mod 21 - 1) 21,
              21 / Z.gcd (2 ^ (6 / 2) mod 21 - 1) 21)).
Proof.
  apply (factor_test_succeeds_on_genuine_period 21 2 6 [(sixth_bits, SHOTS)] []).
  - discriminate.
  - vm_compute. reflexivity.
  - reflexivity.
  - vm_compute. discriminate.
  - vm_compute. discriminate.
Defined.

(** ** Bases without measurements *)

(** X11: an empty histogram is a no-op for its base.  The loop over the
    round's results gives the same outcome, value or exception, when the
    bases whose histogram is empty are taken out of the list. *)
Theorem empty_histograms_are_skipped (N : Z) (pairs : list (Z * counts)) :
  period_phase N pairs
  = period_phase N (filter (fun p => match snd p with [] => false | _ => true end)
                           pairs).
Proof.
  induction pairs as [|[a cs] rest IH]; [reflexivity|].
  cbn [filter snd]. destruct cs as [|oc cs'].
  - cbn [period_phase]. exact IH.
  - cbn [period_phase]. rewrite IH. reflexivity.
Qed.

(** ** The order of the histogram's entries *)

Lemma fold_left_add_permutation (l l' : list Z) :
  Permutation l l' -> forall acc, fold_left Z.add l acc = fold_left Z.add l' acc.
Proof.
  induction 1 as [| x l l' _ IH | x y l | l l' l'' _ IH1 _ IH2]; intros acc;
    cbn [fold_left].
  - reflexivity.
  - apply IH.
  - f_equal. ring.
  - rewrite IH1. apply IH2.
Qed.

Lemma total_shots_permutation (cs cs' : counts) :
  Permutation cs cs' -> total_shots cs = total_shots cs'.
Proof.
  intros Hperm. unfold total_shots.
  apply fold_left_add_permutation, Permutation_map, Hperm.
Qed.

Lemma filter_permutation {A : Type} (p : A -> bool) (l l' : list A) :
  Permutation l l' -> Permutation (filter p l) (filter p l').
Proof.
  induction 1 as [| x l l' _ IH | x y l | l l' l'' _ IH1 _ IH2]; cbn [filter].
  - constructor.
  - destruct (p x); [constructor|]; exact IH.
  - destruct (p x), (p y); try apply Permutation_refl. constructor.
  - eapply Permutation_trans; eassumption.
Qed.

Lemma mapM_permutation {A B : Type} (f : A -> outcome B) (xs xs' : list A) :
  Permutation xs xs' ->
  forall ys, mapM f xs = Ok ys ->
             exists ys', mapM f xs' = Ok ys' /\ Permutation ys ys'.
Proof.
  induction 1 as [| x l l' _ IH | x y l | l l' l'' _ IH1 _ IH2]; intros ys;
    cbn [mapM].
  - intros [= <-]. exists []. split; [reflexivity | constructor].
  - destruct (f x) as [b| |]; cbn [bind]; try discriminate.
    destruct (mapM f l) as [bs| |]; cbn [bind]; try discriminate.
    intros [= <-]. destruct (IH bs eq_refl) as [bs' [-> Hperm]]. cbn [bind].
    exists (b :: bs'). split; [reflexivity | constructor; exact Hperm].
  - destruct (f y) as [b| |]; cbn [bind]; try discriminate.
    destruct (f x) as [b'| |]; cbn [bind]; try discriminate.
    destruct (mapM f l) as [bs| |]; cbn [bind]; try discriminate.
    intros [= <-]. exists (b' :: b :: bs). split; [reflexivity | constructor].
  - intros Hys. destruct (IH1 ys Hys) as [ys' [Hys' Hp1]].
    destruct (IH2 ys' Hys') as [ys'' [Hys'' Hp2]].
    exists ys''. split; [exact Hys'' | eapply Permutation_trans; eassumption].
Qed.

Lemma py_min_permutation (xs xs' : list Z) :
  Permutation xs xs' -> py_min xs = py_min xs'.
Proof.
  intros Hperm.
  pose proof (py_min_spec xs) as Hx. pose proof (py_min_spec xs') as Hx'.
  destruct (py_min xs) as [m|], (py_min xs') as [m'|].
  - destruct Hx as [Hin Hle], Hx' as [Hin' Hle'].
    pose proof (Hle' m (Permutation_in _ Hperm Hin)).
    pose proof (Hle m' (Permutation_in _ (Permutation_sym Hperm) Hin')).
    f_equal. lia.
  - subst xs'. apply Permutation_sym, Permutation_nil in Hperm. subst xs.
    destruct Hx as [[] _].
  - subst xs. apply Permutation_nil in Hperm. subst xs'.
    destruct Hx' as [[] _].
  - reflexivity.
Qed.

(** X9: the result does not depend on the order of the histogram's entries.
    If [optimized_period_finding] returns on a histogram, it returns the same
    value on every reordering of its entries. *)
Theorem period_independent_of_entry_order (cs cs' : counts) (N : Z)
    (res : option Z) :
  Permutation cs cs' ->
  optimized_period_finding cs N = Ok res ->
  optimized_period_finding cs' N = Ok res.
Proof.
  intros Hperm. unfold optimized_period_finding, candidates, phases, threshold.
  rewrite <- (total_shots_permutation cs cs' Hperm).
  destruct (float_mul_int float_0_02 (total_shots cs)) as [thr| |];
    cbn [bind]; try discriminate.
  pose proof (filter_permutation (fun oc => int_ge_float (snd oc) thr) cs cs' Hperm)
    as Hsurv.
  fold (surviving thr cs) in *. fold (surviving thr cs') in *.
  destruct (mapM (fun oc => phase_of (fst oc)) (surviving thr cs)) as [ps| |] eqn:Hps;
    cbn [bind]; try discriminate.
  destruct (mapM_permutation _ _ _ Hsurv ps Hps) as [ps' [-> Hpp]]. cbn [bind].
  destruct (mapM (candidate_of N) ps) as [rs| |] eqn:Hrs;
    cbn [bind]; try discriminate.
  destruct (mapM_permutation _ _ _ Hpp rs Hrs) as [rs' [-> Hpr]]. cbn [bind].
  intros [= <-]. f_equal.
  symmetry. apply py_min_permutation, filter_permutation, Hpr.
Qed.

Lemma period_independent_of_entry_order_witness :
  optimized_period_finding [(one_hot 1, 4014); (one_hot 0, 82)] 15 = Ok (Some 2).
Proof.
  apply (period_independent_of_entry_order
           [(one_hot 0, 82); (one_hot 1, 4014)]
           [(one_hot 1, 4014); (one_hot 0, 82)] 15 (Some 2)).
  - apply perm_swap.
  - vm_compute. reflexivity.
Defined.

(** ** The interactive driver *)

(** A returned pair is never falsy, so the inner loop of [main] makes one
    call and never takes the "Retrying..." branch. *)
Lemma factor_loop_one_call (N : Z) (env : call_env) (rest : list call_env) :
  factor_loop N (env :: rest)
  = match call_run N env with
    | Ok (p, q) => ([Invoked N; SayFactors p q N], Ok tt, rest)
    | Raise e => ([Invoked N], Raise e, rest)
    | Running => ([Invoked N], Running, rest)
    end.
Proof.
  cbn [factor_loop].
  destruct (call_run N env) as [[p q]| |] eqn:Hcall; try reflexivity.
  unfold call_run in Hcall.
  destruct (session env); cbn [bind] in Hcall; try discriminate.
  apply shor_loop_sound in Hcall. destruct Hcall as [_ [Hp Hq]].
  cbn [fst snd] in *.
  destruct (Z.eqb_spec p 0); [lia|]. destruct (Z.eqb_spec q 0); [lia|].
  reflexivity.
Qed.

Lemma factor_loop_events (N : Z) (calls : list call_env) (ev : main_event) :
  In ev (fst (fst (factor_loop N calls))) ->
  ev = Invoked N \/
  exists p q, ev = SayFactors p q N /\ p * q = N /\ 1 < p < N /\ 1 < q < N.
Proof.
  destruct calls as [|env rest]; [intros []|].
  rewrite factor_loop_one_call.
  destruct (call_run N env) as [[p q]| |] eqn:Hcall; cbn [fst In].
  - intros [<- | [<- | []]]; [left; reflexivity|].
    right. exists p, q. split; [reflexivity|].
    unfold call_run in Hcall.
    destruct (session env); cbn [bind] in Hcall; try discriminate.
    exact (shor_loop_sound _ _ _ _ Hcall).
  - intros [<- | []]. left. reflexivity.
  - intros [<- | []]. left. reflexivity.
Qed.

Section MainFacts.

Variable isdigit : pystr -> bool.
Variable int_of_str : pystr -> outcome Z.

Lemma justified_later (r : read) (lines : list read) (ev : main_event) :
  justified isdigit int_of_str lines ev -> justified isdigit int_of_str (r :: lines) ev.
Proof.
  destruct ev; cbn [justified]; try tauto.
  intros [HN [s [Hin Hs]]]. split; [exact HN|].
  exists s. split; [right; exact Hin | exact Hs].
Qed.

Lemma main_events_justified :
  forall lines calls ev,
    In ev (fst (main isdigit int_of_str lines calls)) -> justified isdigit int_of_str lines ev.
Proof.
  unfold main.
  induction lines as [|r more IH]; intros calls ev; cbn [main_loop].
  - intros [<- | []]. exact I.
  - assert (Hrec : forall calls' evs res,
               main_loop isdigit int_of_str more calls' = (evs, res) ->
               In ev evs -> justified isdigit int_of_str (r :: more) ev).
    { intros calls' evs res Heq Hin. apply justified_later.
      apply (IH calls'). rewrite Heq. exact Hin. }
    destruct r as [s|].
    + destruct (pystr_eqb s zero_line) eqn:Hzero.
      { intros [<- | []]. exact I. }
      destruct (isdigit s) eqn:Hdigit; cbn [negb].
      * destruct (int_of_str s) as [N| |] eqn:Hint.
        -- destruct (Z.ltb_spec N 4) as [Hsmall | Hbig].
           ++ destruct (main_loop isdigit int_of_str more calls) as [evs res] eqn:Heq.
              cbn [fst]. intros [<- | [<- | Hin]]; try exact I.
              exact (Hrec _ _ _ Heq Hin).
           ++ pose proof (factor_loop_events N calls) as Hfl.
              destruct (factor_loop N calls) as [[fevs fr] calls'].
              cbn [fst] in Hfl.
              assert (Hfevs : In ev fevs -> justified isdigit int_of_str (Line s :: more) ev).
              { intros Hin. destruct (Hfl ev Hin) as [-> | [p [q [-> Hpq]]]].
                - cbn [justified]. split; [lia|]. exists s.
                  split; [left; reflexivity|]. split; [| split; assumption].
                  intros ->. unfold pystr_eqb in Hzero.
                  destruct (list_eq_dec N.eq_dec zero_line zero_line);
                    [discriminate | congruence].
                - cbn [justified]. split; [lia | exact Hpq]. }
              destruct fr as [u| e |].
              ** destruct (main_loop isdigit int_of_str more calls') as [evs res] eqn:Heq.
                 cbn [fst]. intros [<- | [<- | Hin]]; try exact I.
                 apply in_app_iff in Hin. destruct Hin as [Hin | [<- | Hin]];
                   [exact (Hfevs Hin) | exact I | exact (Hrec _ _ _ Heq Hin)].
              ** destruct (main_loop isdigit int_of_str more calls') as [evs res] eqn:Heq.
                 cbn [fst]. intros [<- | [<- | Hin]]; try exact I.
                 apply in_app_iff in Hin. destruct Hin as [Hin | [<- | Hin]];
                   [exact (Hfevs Hin) | exact I | exact (Hrec _ _ _ Heq Hin)].
              ** cbn [fst]. intros [<- | [<- | Hin]]; try exact I.
                 exact (Hfevs Hin).
        -- destruct (main_loop isdigit int_of_str more calls) as [evs res] eqn:Heq.
           cbn [fst]. intros [<- | [<- | Hin]]; try exact I.
           exact (Hrec _ _ _ Heq Hin).
        -- intros [<- | []]. exact I.
      * destruct (main_loop isdigit int_of_str more calls) as [evs res] eqn:Heq.
        cbn [fst]. intros [<- | [<- | Hin]]; try exact I.
        exact (Hrec _ _ _ Heq Hin).
    + destruct (main_loop isdigit int_of_str more calls) as [evs res] eqn:Heq.
      cbn [fst]. intros [<- | [<- | Hin]]; try exact I.
      exact (Hrec _ _ _ Heq Hin).
Qed.


Lemma main_never_raises :
  forall lines calls e, snd (main isdigit int_of_str lines calls) <> Raise e.
Proof.
  unfold main.
  induction lines as [|r more IH]; intros calls e; cbn [main_loop];
    [discriminate|].
  destruct r as [s|].
  - destruct (pystr_eqb s zero_line); [discriminate|].
    destruct (negb (isdigit s)).
    { specialize (IH calls e).
      destruct (main_loop isdigit int_of_str more calls). exact IH. }
    destruct (int_of_str s) as [N| |].
    + destruct (N <? 4).
      { specialize (IH calls e).
        destruct (main_loop isdigit int_of_str more calls). exact IH. }
      destruct (factor_loop N calls) as [[fevs fr] calls'].
      destruct fr; [| | discriminate];
        specialize (IH calls' e);
        destruct (main_loop isdigit int_of_str more calls'); exact IH.
    + specialize (IH calls e).
      destruct (main_loop isdigit int_of_str more calls). exact IH.
    + discriminate.
  - specialize (IH calls e).
    destruct (main_loop isdigit int_of_str more calls). exact IH.
Qed.

Lemma main_returns_only_on_zero :
  forall lines calls,
    snd (main isdigit int_of_str lines calls) = Ok tt -> In (Line zero_line) lines.
Proof.
  unfold main.
  induction lines as [|r more IH]; intros calls; cbn [main_loop];
    [discriminate|].
  destruct r as [s|].
  - unfold pystr_eqb. destruct (list_eq_dec N.eq_dec s zero_line) as [-> | _].
    { intros _. left. reflexivity. }
    destruct (negb (isdigit s)).
    { specialize (IH calls).
      destruct (main_loop isdigit int_of_str more calls). intros H. right. exact (IH H). }
    destruct (int_of_str s) as [N| |].
    + destruct (N <? 4).
      { specialize (IH calls).
        destruct (main_loop isdigit int_of_str more calls).
        intros H. right. exact (IH H). }
      destruct (factor_loop N calls) as [[fevs fr] calls'].
      destruct fr; [| | discriminate];
        specialize (IH calls');
        destruct (main_loop isdigit int_of_str more calls');
        intros H; right; exact (IH H).
    + specialize (IH calls).
      destruct (main_loop isdigit int_of_str more calls). intros H. right. exact (IH H).
    + discriminate.
  - specialize (IH calls).
    destruct (main_loop isdigit int_of_str more calls). intros H. right. exact (IH H).
Qed.

Lemma main_stops_at_zero :
  forall before after calls,
    main isdigit int_of_str (before ++ Line zero_line :: after) calls
    = main isdigit int_of_str (before ++ [Line zero_line]) calls.
Proof.
  unfold main.
  induction before as [|r more IH]; intros after calls; cbn [app main_loop].
  - reflexivity.
  - destruct r as [s|].
    + destruct (pystr_eqb s zero_line); [reflexivity|].
      destruct (negb (isdigit s)); [rewrite IH; reflexivity|].
      destruct (int_of_str s) as [N| |]; [| rewrite IH; reflexivity | reflexivity].
      destruct (N <? 4); [rewrite IH; reflexivity|].
      destruct (factor_loop N calls) as [[fevs fr] calls'].
      destruct fr; [rewrite IH; reflexivity | rewrite IH; reflexivity | reflexivity].
    + rewrite IH. reflexivity.
Qed.

End MainFacts.

(** X12: [main] calls [run_shors_algorithm] only on validated input: every
    call is made with an N >= 4 that is the value [int] gave for a line that
    passed [isdigit] and is not the line "0". *)
Theorem main_invokes_only_validated_numbers
    (isdigit : pystr -> bool) (int_of_str : pystr -> outcome Z)
    (lines : list read) (calls : list call_env) (N : Z) :
  In (Invoked N) (fst (main isdigit int_of_str lines calls)) ->
  4 <= N /\
  exists s, In (Line s) lines /\ s <> zero_line /\
            isdigit s = true /\ int_of_str s = Ok N.
Proof.
  intros Hin. exact (main_events_justified isdigit int_of_str lines calls _ Hin).
Qed.

Lemma main_invokes_only_validated_numbers_witness :
  4 <= 21 /\
  exists s, In (Line s) sample_lines /\ s <> zero_line /\
            ascii_isdigit s = true /\ ascii_int s = Ok 21.
Proof.
  apply (main_invokes_only_validated_numbers
           ascii_isdigit ascii_int sample_lines sample_calls 21).
  vm_compute. tauto.
Defined.

(** X13: every factor line that [main] prints is right, and the retry
    branch is dead: a printed triple has [p * q = N] with [1 < p < N] and
    [1 < q < N], and "Retrying..." is never printed, because a pair returned
    by [run_shors_algorithm] is never falsy. *)
Theorem main_prints_only_true_factors
    (isdigit : pystr -> bool) (int_of_str : pystr -> outcome Z)
    (lines : list read) (calls : list call_env) :
  (forall p q N,
     In (SayFactors p q N) (fst (main isdigit int_of_str lines calls)) ->
     p * q = N /\ 1 < p < N /\ 1 < q < N) /\
  ~ In SayRetrying (fst (main isdigit int_of_str lines calls)).
Proof.
  split.
  - intros p q N Hin.
    exact (proj2 (main_events_justified isdigit int_of_str lines calls _ Hin)).
  - intros Hin.
    exact (main_events_justified isdigit int_of_str lines calls _ Hin).
Qed.

Lemma main_prints_only_true_factors_witness :
  In (SayFactors 7 3 21) (fst (main ascii_isdigit ascii_int sample_lines sample_calls)) /\
  7 * 3 = 21 /\ 1 < 7 < 21 /\ 1 < 3 < 21.
Proof.
  assert (Hin : In (SayFactors 7 3 21)
                   (fst (main ascii_isdigit ascii_int sample_lines sample_calls)))
    by (vm_compute; tauto).
  split; [exact Hin|].
  exact (proj1 (main_prints_only_true_factors
                  ascii_isdigit ascii_int sample_lines sample_calls) 7 3 21 Hin).
Defined.

(** X14: how [main] ends.  It never ends in an exception: a failing
    [input], a failing [int] and a failing [run_shors_algorithm] are each
    answered with an error line and the next prompt.  It returns only after
    reading the line "0", and what follows that line is never read. *)
Theorem main_ends_only_on_zero
    (isdigit : pystr -> bool) (int_of_str : pystr -> outcome Z)
    (lines after : list read) (calls : list call_env) :
  (forall e, snd (main isdigit int_of_str lines calls) <> Raise e) /\
  (snd (main isdigit int_of_str lines calls) = Ok tt -> In (Line zero_line) lines) /\
  main isdigit int_of_str (lines ++ Line zero_line :: after) calls
  = main isdigit int_of_str (lines ++ [Line zero_line]) calls /\
  main isdigit int_of_str (InputError :: lines) calls
  = (Prompt :: SayError :: fst (main isdigit int_of_str lines calls),
     snd (main isdigit int_of_str lines calls)) /\
  (forall s e,
     s <> zero_line -> isdigit s = true -> int_of_str s = Raise e ->
     main isdigit int_of_str (Line s :: lines) calls
     = (Prompt :: SayError :: fst (main isdigit int_of_str lines calls),
        snd (main isdigit int_of_str lines calls))) /\
  (forall s N env e,
     s <> zero_line -> isdigit s = true -> int_of_str s = Ok N -> 4 <= N ->
     session env = Raise e ->
     main isdigit int_of_str (Line s :: lines) (env :: calls)
     = (Prompt :: SayFactoring :: Invoked N :: SayError
               :: fst (main isdigit int_of_str lines calls),
        snd (main isdigit int_of_str lines calls))).
Proof.
  split; [intros e; apply main_never_raises|].
  split; [apply main_returns_only_on_zero|].
  split; [apply main_stops_at_zero|].
  assert (Hzero : forall s, s <> zero_line -> pystr_eqb s zero_line = false).
  { intros s Hs. unfold pystr_eqb.
    destruct (list_eq_dec N.eq_dec s zero_line); [contradiction | reflexivity]. }
  unfold main. split; [| split].
  - cbn [main_loop].
    destruct (main_loop isdigit int_of_str lines calls). reflexivity.
  - intros s e Hs Hdigit Hint. cbn [main_loop].
    rewrite (Hzero s Hs), Hdigit, Hint. cbn [negb].
    destruct (main_loop isdigit int_of_str lines calls). reflexivity.
  - intros s N env e Hs Hdigit Hint HN Hsession. cbn [main_loop].
    rewrite (Hzero s Hs), Hdigit, Hint. cbn [negb].
    destruct (Z.ltb_spec N 4) as [Hsmall | _]; [lia|].
    rewrite factor_loop_one_call. unfold call_run. rewrite Hsession. cbn [bind].
    destruct (main_loop isdigit int_of_str lines calls). reflexivity.
Qed.

Lemma main_ends_only_on_zero_witness :
  snd (main ascii_isdigit ascii_int sample_lines sample_calls) = Ok tt /\
  In (Line zero_line) sample_lines /\
  main ascii_isdigit ascii_int failing_lines failing_calls
  = ([Prompt; SayError; Prompt; SayFactoring; Invoked 21; SayError; Prompt], Ok tt).
Proof.
  assert (Hret : snd (main ascii_isdigit ascii_int sample_lines sample_calls) = Ok tt)
    by (vm_compute; reflexivity).
  split; [exact Hret|]. split.
  - exact (proj1 (proj2 (main_ends_only_on_zero
                           ascii_isdigit ascii_int sample_lines [] sample_calls)) Hret).
  - unfold failing_lines, failing_calls.
    destruct (main_ends_only_on_zero ascii_isdigit ascii_int
                [Line (digits_line [2; 1]); Line zero_line] []
                [mkCall (Raise BackendError) []])
      as [_ [_ [_ [Hinput _]]]].
    rewrite Hinput.
    destruct (main_ends_only_on_zero ascii_isdigit ascii_int
                [Line zero_line] [] [])
      as [_ [_ [_ [_ [_ Hcall]]]]].
    rewrite (Hcall (digits_line [2; 1]) 21 (mkCall (Raise BackendError) [])
                   BackendError);
      [reflexivity | discriminate | reflexivity | reflexivity | lia | reflexivity].
Defined.

(** ** Rounds *)

(** X15: the first round that returns ends the run.  If the loop returns a
    pair within the rounds [envs], it returns the same pair, with the same
    trace, whatever rounds would have followed: none of them is started. *)
Theorem run_ends_at_first_return (N : Z) (envs later : list round_env)
    (pq : Z * Z) :
  snd (run_shors_algorithm N envs) = Ok pq ->
  run_shors_algorithm N (envs ++ later) = run_shors_algorithm N envs.
Proof.
  unfold run_shors_algorithm. generalize (LargeNumberShorCircuit_init N) as gen.
  intros gen. induction envs as [|env rest IH]; cbn [app shor_loop]; [discriminate|].
  destruct (round N gen env) as [t [[pq'|]| |]]; try reflexivity.
  - destruct (shor_loop N gen rest) as [ts r] eqn:Hrest. cbn [snd] in *.
    intros Hr. rewrite (IH Hr). reflexivity.
  - destruct (shor_loop N gen rest) as [ts r] eqn:Hrest. cbn [snd] in *.
    intros Hr. rewrite (IH Hr). reflexivity.
Qed.

Lemma run_ends_at_first_return_witness :
  run_shors_algorithm 15
    ([mkRound [7; 2] failing_backend; mkRound [5] failing_backend]
     ++ [mkRound [3] failing_backend])
  = run_shors_algorithm 15
      [mkRound [7; 2] failing_backend; mkRound [5] failing_backend].
Proof.
  apply (run_ends_at_first_return 15
           [mkRound [7; 2] failing_backend; mkRound [5] failing_backend]
           [mkRound [3] failing_backend] (5, 3)).
  vm_compute. reflexivity.
Defined.

Lemma shor_loop_returns_classical (N : Z) (gen : LargeNumberShorCircuit)
    (envs : list round_env) (pq : Z * Z) :
  snd (shor_loop N gen envs) = Ok pq ->
  exists env, In env envs /\ classical_check N (drawn env) = Some pq.
Proof.
  induction envs as [|env rest IH]; cbn [shor_loop]; [discriminate|].
  destruct (round_cases N gen env)
    as [Hr | [[pq' [Hcc Hr]] | [[_ Hr] | [a [bases [r [_ [_ [Hr Hnot]]]]]]]]];
    rewrite Hr.
  - destruct (shor_loop N gen rest) as [ts r']. cbn [snd] in *.
    intros Hret. destruct (IH Hret) as [env' [Hin Hcc]].
    exists env'. split; [right; exact Hin | exact Hcc].
  - cbn [snd]. intros [= <-]. exists env. split; [left; reflexivity | exact Hcc].
  - destruct (shor_loop N gen rest) as [ts r']. cbn [snd] in *.
    intros Hret. destruct (IH Hret) as [env' [Hin Hcc]].
    exists env'. split; [right; exact Hin | exact Hcc].
  - destruct r as [res | e |].
    + destruct (Hnot res eq_refl).
    + destruct (shor_loop N gen rest) as [ts r']. cbn [snd] in *.
      intros Hret. destruct (IH Hret) as [env' [Hin Hcc]].
      exists env'. split; [right; exact Hin | exact Hcc].
    + discriminate.
Qed.

(** X16: only the gcd loop returns.  No call of [create_quantum_circuits]
    returns a circuit.  So in every round, whatever N, the bases drawn and
    the backend: a batch is dispatched only when no base was drawn, and it
    is empty; and a round that returns a pair returns the pair of the gcd
    loop, with nothing built and nothing dispatched.  Hence every pair that
    [run_shors_algorithm] returns is the pair of the gcd loop of one of its
    rounds: the [return] of the period loop (main.py:113) is never
    reached. *)
Theorem only_the_gcd_loop_returns (N : Z) (envs : list round_env) :
  (forall self a c, snd (create_quantum_circuits self a) <> Ok c) /\
  (forall gen env jobs,
     In (Dispatched jobs) (fst (round N gen env)) ->
     jobs = [] /\ drawn env = []) /\
  (forall gen env pq,
     snd (round N gen env) = Ok (Some pq) ->
     fst (round N gen env) = [] /\ classical_check N (drawn env) = Some pq) /\
  (forall pq,
     snd (run_shors_algorithm N envs) = Ok pq ->
     exists env, In env envs /\ classical_check N (drawn env) = Some pq).
Proof.
  split; [intros self a c; apply create_quantum_circuits_never_returns|].
  split; [| split].
  - intros gen env jobs.
    destruct (round_cases N gen env)
      as [Hr | [[pq' [Hcc Hr]] | [[Hd Hr] | [a [bases [r [_ [_ [Hr _]]]]]]]]];
      rewrite Hr; cbn [fst In].
    + intros [].
    + intros [].
    + intros [[= <-] | []]. split; [reflexivity | exact Hd].
    + intros [Hb | []]. discriminate.
  - intros gen env pq.
    destruct (round_cases N gen env)
      as [Hr | [[pq' [Hcc Hr]] | [[Hd Hr] | [a [bases [r [_ [_ [Hr Hnot]]]]]]]]];
      rewrite Hr; cbn [fst snd].
    + discriminate.
    + intros [= <-]. split; [reflexivity | exact Hcc].
    + discriminate.
    + intros Hret. destruct (Hnot _ Hret).
  - intros pq. apply shor_loop_returns_classical.
Qed.

Lemma only_the_gcd_loop_returns_witness :
  let envs := [mkRound [2; 5; 8; 10; 11; 13; 16; 20]
                       (constant_backend [(sixth_bits, SHOTS)]);
               mkRound [4; 19; 14; 3; 17; 6; 2; 12]
                       (constant_backend [(sixth_bits, SHOTS)])] in
  run_shors_algorithm 21 envs = ([[Built 2]; []], Ok (7, 3)) /\
  exists env, In env envs /\ classical_check 21 (drawn env) = Some (7, 3).
Proof.
  cbv zeta.
  assert (Hrun : run_shors_algorithm 21
            [mkRound [2; 5; 8; 10; 11; 13; 16; 20]
                     (constant_backend [(sixth_bits, SHOTS)]);
             mkRound [4; 19; 14; 3; 17; 6; 2; 12]
                     (constant_backend [(sixth_bits, SHOTS)])]
          = ([[Built 2]; []], Ok (7, 3)))
    by (vm_compute; reflexivity).
  split; [exact Hrun|].
  apply (only_the_gcd_loop_returns 21). rewrite Hrun. reflexivity.
Defined.

(** ** The threshold at the configured shot count *)

(** X17: the threshold at the configured shot count and at zero.  In a
    histogram whose counts add up to SHOTS = 4096 the threshold is 81.92 and
    an outcome survives exactly when its count is at least 82.  In a
    histogram whose counts add up to 0 the threshold is 0.0 and every
    outcome with a count of at least 0 survives, so outcomes that were never
    measured become candidates. *)
Theorem threshold_at_configured_shots (cs : counts) :
  (total_shots cs = SHOTS ->
   exists thr,
     threshold cs = Ok thr /\
     forall oc, In oc (surviving thr cs) <-> In oc cs /\ 82 <= snd oc) /\
  (total_shots cs = 0 ->
   exists thr,
     threshold cs = Ok thr /\
     forall oc, In oc (surviving thr cs) <-> In oc cs /\ 0 <= snd oc).
Proof.
  split; intros Htotal.
  - exists (S754_finite false 5764607523034235 (-46)). split.
    + unfold threshold. rewrite Htotal. vm_compute. reflexivity.
    + intros oc. unfold surviving. rewrite filter_In.
      cbn [int_ge_float Z.leb Z.compare Z.opp].
      rewrite Z.leb_le. change (2 ^ 46) with 70368744177664. split.
      * intros [Hin Hc]. split; [exact Hin | lia].
      * intros [Hin Hc]. split; [exact Hin | lia].
  - exists (S754_zero false). split.
    + unfold threshold. rewrite Htotal. vm_compute. reflexivity.
    + intros oc. unfold surviving. rewrite filter_In.
      cbn [int_ge_float]. rewrite Z.leb_le. reflexivity.
Qed.

Lemma threshold_at_configured_shots_witness :
  (exists thr,
     threshold [(one_hot 0, 82); (one_hot 1, 4014)] = Ok thr /\
     forall oc, In oc (surviving thr [(one_hot 0, 82); (one_hot 1, 4014)])
                <-> In oc [(one_hot 0, 82); (one_hot 1, 4014)] /\ 82 <= snd oc) /\
  (exists thr,
     threshold [(one_hot 0, 0)] = Ok thr /\
     forall oc, In oc (surviving thr [(one_hot 0, 0)])
                <-> In oc [(one_hot 0, 0)] /\ 0 <= snd oc).
Proof.
  destruct (threshold_at_configured_shots [(one_hot 0, 82); (one_hot 1, 4014)])
    as [Hshots _].
  destruct (threshold_at_configured_shots [(one_hot 0, 0)]) as [_ Hzero].
  split; [apply Hshots; reflexivity | apply Hzero; reflexivity].
Defined.

(** ** Input without a proper divisor *)

(** X19: on a prime N the run never returns.  When N has no divisor
    strictly between 1 and N, [run_shors_algorithm] gives back no pair,
    whatever the random source and the backend do, and it does not raise
    either: the loop goes on for as long as rounds are granted to it. *)
Theorem prime_input_never_returns (N : Z) (envs : list round_env) :
  no_proper_divisor N ->
  (forall pq, snd (run_shors_algorithm N envs) <> Ok pq) /\
  (forall e, snd (run_shors_algorithm N envs) <> Raise e) /\
  snd (run_shors_algorithm N envs) = Running.
Proof.
  intros Hprime.
  assert (Hnone : forall pq, snd (run_shors_algorithm N envs) <> Ok pq).
  { intros [p q] Hret. apply shor_loop_sound in Hret.
    destruct Hret as [Hmul [Hp Hq]]. cbn [fst snd] in *.
    apply (Hprime p Hp). exists q. lia. }
  assert (Hnoexn : forall e, snd (run_shors_algorithm N envs) <> Raise e)
    by (intros e; apply shor_loop_no_raise).
  split; [exact Hnone | split; [exact Hnoexn|]].
  destruct (snd (run_shors_algorithm N envs)) as [pq | e |];
    [destruct (Hnone pq eq_refl) | destruct (Hnoexn e eq_refl) | reflexivity].
Qed.

Lemma prime_input_never_returns_witness :
  snd (run_shors_algorithm 7
         [mkRound [2; 3] (constant_backend [(sixth_bits, SHOTS)]);
          mkRound [5; 6] failing_backend]) = Running.
Proof.
  apply (prime_input_never_returns 7
           [mkRound [2; 3] (constant_backend [(sixth_bits, SHOTS)]);
            mkRound [5; 6] failing_backend]).
  intros d Hd [k Hk].
  assert (Hcases : d = 2 \/ d = 3 \/ d = 4 \/ d = 5 \/ d = 6) by lia.
  destruct Hcases as [-> | [-> | [-> | [-> | ->]]]]; lia.
Defined.

(** ** Exact phases *)

Lemma Zdigits2_lower (m : Z) : 0 < m -> 2 ^ (Zdigits2 m - 1) <= m.
Proof.
  intros Hm. destruct m as [|p|p]; try lia.
  cbn [Zdigits2]. rewrite digits2_pos_size.
  pose proof (Pos.size_le p) as Hle.
  apply Pos2Z.pos_le_pos in Hle. rewrite Pos2Z.inj_pow in Hle.
  change (Z.pos p~0) with (2 * Z.pos p) in Hle.
  replace (Z.pos (Pos.size p)) with (Z.succ (Z.pos (Pos.size p) - 1)) in Hle by lia.
  rewrite Z.pow_succ_r in Hle by lia. lia.
Qed.

Lemma Zdigits2_unique (m k : Z) :
  0 < m -> 2 ^ (k - 1) <= m < 2 ^ k -> Zdigits2 m = k.
Proof.
  intros Hm [Hlo Hhi].
  assert (Hk : 0 <= k).
  { destruct (Z.le_gt_cases 0 k) as [|Hneg]; [assumption|].
    rewrite Z.pow_neg_r in Hhi by lia. lia. }
  pose proof (Zdigits2_le m k Hk ltac:(lia)) as Hle.
  pose proof (Zdigits2_gt m ltac:(lia)) as Hgt.
  pose proof (Zdigits2_nonneg m) as Hnn.
  destruct (Z.le_gt_cases k (Zdigits2 m)) as [|Hsmall]; [lia|].
  exfalso.
  assert (2 ^ Zdigits2 m <= 2 ^ (k - 1)) by (apply Z.pow_le_mono_r; lia).
  lia.
Qed.

Lemma Zdigits2_mul_pow2 (v k : Z) :
  0 < v -> 0 <= k -> Zdigits2 (v * 2 ^ k) = Zdigits2 v + k.
Proof.
  intros Hv Hk.
  pose proof (Zdigits2_lower v Hv) as Hlo.
  pose proof (Zdigits2_gt v ltac:(lia)) as Hhi.
  pose proof (Zdigits2_nonneg v) as Hnn.
  assert (Hd : 1 <= Zdigits2 v).
  { destruct (Z.le_gt_cases 1 (Zdigits2 v)); [assumption|].
    replace (Zdigits2 v) with 0 in Hhi by lia. change (2 ^ 0) with 1 in Hhi. lia. }
  pose proof (Z.pow_pos_nonneg 2 k ltac:(lia) Hk) as Hpk.
  apply Zdigits2_unique; [nia|].
  replace (Zdigits2 v + k - 1) with (Zdigits2 v - 1 + k) by lia.
  rewrite !Z.pow_add_r by lia. nia.
Qed.

Lemma Zdigits2_pow2 (k : Z) : 0 <= k -> Zdigits2 (2 ^ k) = k + 1.
Proof.
  intros Hk.
  pose proof (Z.pow_pos_nonneg 2 k ltac:(lia) Hk) as Hpk.
  apply Zdigits2_unique; [lia|].
  replace (k + 1 - 1) with k by lia.
  rewrite Z.pow_add_r, Z.pow_1_r by lia. lia.
Qed.

Lemma div_eucl_div_mod (a b : Z) : Z.div_eucl a b = (a / b, a mod b).
Proof. unfold Z.div, Z.modulo. destruct (Z.div_eucl a b). reflexivity. Qed.

(** The quotient of [v] by [2^L] for at most 53 bits: no rounding. *)
Lemma int_truediv_pow2_exact (v L : Z) :
  0 < v < 2 ^ L -> L <= 53 ->
  exists m,
    int_truediv v (2 ^ L) = Ok (S754_finite false m (Zdigits2 v - L - 53)) /\
    Z.pos m = v * 2 ^ (53 - Zdigits2 v).
Proof.
  intros Hv HL.
  assert (HL0 : 0 < L).
  { destruct (Z.lt_ge_cases 0 L); [assumption|].
    destruct (Z.eq_dec L 0) as [-> | ]; [change (2 ^ 0) with 1 in Hv; lia|].
    rewrite Z.pow_neg_r in Hv by lia. lia. }
  set (d := Zdigits2 v).
  assert (Hd : 1 <= d <= L).
  { split.
    - pose proof (Zdigits2_nonneg v) as Hnn.
      pose proof (Zdigits2_gt v ltac:(lia)) as Hgt.
      fold d in Hnn, Hgt. destruct (Z.eq_dec d 0) as [H0|]; [| lia].
      rewrite H0 in Hgt. change (2 ^ 0) with 1 in Hgt. lia.
    - apply Zdigits2_le; lia. }
  pose proof (Z.pow_pos_nonneg 2 L ltac:(lia) ltac:(lia)) as HpL.
  unfold int_truediv.
  destruct (Z.eqb_spec (2 ^ L) 0); [lia|].
  destruct (Z.ltb_spec v 0); [lia|]. destruct (Z.ltb_spec (2 ^ L) 0); [lia|].
  cbn [xorb]. destruct (Z.eqb_spec v 0); [lia|].
  rewrite !Z.abs_eq by lia.
  unfold SFdiv_core_binary. rewrite Zdigits2_pow2 by lia. fold d.
  assert (He' : Z.min (fexp prec emax (d + 0 - (L + 1 + 0))) (0 - 0) = d - L - 54).
  { unfold fexp, emin, prec, emax. lia. }
  rewrite He'.
  replace (0 - 0 - (d - L - 54)) with (L + 54 - d) by lia.
  destruct (L + 54 - d) as [|s|s] eqn:Hs; try lia.
  rewrite <- Hs. rewrite Z.shiftl_mul_pow2 by lia.
  rewrite div_eucl_div_mod.
  assert (Hsplit : v * 2 ^ (L + 54 - d) = v * 2 ^ (54 - d) * 2 ^ L).
  { replace (L + 54 - d) with (54 - d + L) by lia.
    rewrite Z.pow_add_r by lia. ring. }
  rewrite Hsplit, Z.div_mul, Z.mod_mul by lia.
  assert (Hloc : new_location (2 ^ L) 0 = loc_Exact).
  { unfold new_location, new_location_even, new_location_odd.
    destruct (Z.even (2 ^ L)); reflexivity. }
  rewrite Hloc.
  set (q' := v * 2 ^ (53 - d)).
  assert (Hq' : 0 < q').
  { unfold q'. pose proof (Z.pow_pos_nonneg 2 (53 - d) ltac:(lia) ltac:(lia)). nia. }
  assert (Hq : v * 2 ^ (54 - d) = 2 * q').
  { unfold q'. replace (54 - d) with (Z.succ (53 - d)) by lia.
    rewrite Z.pow_succ_r by lia. ring. }
  assert (Hdq' : Zdigits2 q' = 53).
  { unfold q'. rewrite Zdigits2_mul_pow2 by lia. fold d. lia. }
  assert (Hdq : Zdigits2 (2 * q') = 54).
  { replace (2 * q') with (q' * 2 ^ 1) by (change (2 ^ 1) with 2; ring).
    rewrite Zdigits2_mul_pow2 by lia. lia. }
  rewrite Hq.
  unfold binary_round_aux, shr_fexp. rewrite Hdq.
  assert (Hn1 : fexp prec emax (54 + (d - L - 54)) - (d - L - 54) = 1).
  { unfold fexp, emin, prec, emax. lia. }
  rewrite Hn1.
  destruct q' as [|p|p] eqn:Hp; try lia.
  cbn [Z.mul Pos.mul shr shr_record_of_loc iter_pos shr_1 shr_m shr_r shr_s orb
       loc_of_shr_record round_nearest_even].
  change (Zdigits2 (Z.pos p)) with (Zdigits2 (Z.pos p)).
  rewrite Hdq'.
  assert (Hn2 : fexp prec emax (53 + (d - L - 54 + 1)) - (d - L - 54 + 1) = 0).
  { unfold fexp, emin, prec, emax. lia. }
  rewrite Hn2. cbn [shr shr_record_of_loc shr_m].
  destruct (Z.leb_spec (d - L - 54 + 1) (emax - prec)) as [_ | Hbad];
    [| unfold emax, prec in Hbad; lia].
  exists p. split; [| reflexivity].
  f_equal. f_equal. lia.
Qed.

Lemma int_base2_range (output : bitstring) (v : Z) :
  int_base2 output = Ok v -> 0 <= v < 2 ^ Z.of_nat (length output).
Proof.
  unfold int_base2. intros Hv.
  assert (Hfold : v = fold_left (fun acc (b : bool) => 2 * acc + (if b then 1 else 0))
                                output 0).
  { destruct output; [discriminate | injection Hv as <-; reflexivity]. }
  pose proof (int_base2_fold_bound output 0 ltac:(lia)). lia.
Qed.

(** X18: for a measured bitstring of at most 53 bits the phase is exact.
    The float [int(output, 2) / 2 ** len(output)] then has the value
    [v / 2^len] without rounding, so [Fraction(phase)] is that fraction in
    lowest terms; only longer bitstrings are rounded. *)
Theorem phase_exact_up_to_53_bits (output : bitstring) (v : Z) :
  (length output <= 53)%nat ->
  int_base2 output = Ok v ->
  let L := Z.of_nat (length output) in
  0 <= v < 2 ^ L /\
  exists x,
    phase_of output = Ok x /\
    Fraction_of_float x = Ok (v / Z.gcd v (2 ^ L), 2 ^ L / Z.gcd v (2 ^ L)).
Proof.
  intros Hlen Hv L.
  assert (Hne : output <> []) by (intros ->; discriminate).
  assert (Hrange : 0 <= v < 2 ^ L) by (apply int_base2_range; exact Hv).
  split; [exact Hrange|].
  assert (HL : 0 < L <= 53).
  { unfold L. destruct output; [contradiction | cbn [length] in *; lia]. }
  pose proof (Z.pow_pos_nonneg 2 L ltac:(lia) ltac:(lia)) as HpL.
  unfold phase_of. rewrite Hv. cbn [bind]. fold L.
  destruct (Z.eq_dec v 0) as [-> | Hv0].
  - exists (S754_zero false). split.
    + unfold int_truediv.
      destruct (Z.eqb_spec (2 ^ L) 0); [lia|].
      destruct (Z.ltb_spec (2 ^ L) 0); [lia | reflexivity].
    + cbn [Fraction_of_float]. rewrite Z.gcd_0_l, Z.abs_eq by lia.
      rewrite Z.div_0_l, Z.div_same by lia. reflexivity.
  - destruct (int_truediv_pow2_exact v L ltac:(lia) ltac:(lia)) as [m [Hx Hm]].
    eexists. split; [exact Hx|].
    set (d := Zdigits2 v) in *.
    assert (Hd : 1 <= d <= L).
    { split.
      - pose proof (Zdigits2_nonneg v) as Hnn.
        pose proof (Zdigits2_gt v ltac:(lia)) as Hgt.
        fold d in Hnn, Hgt. destruct (Z.eq_dec d 0) as [H0|]; [| lia].
        rewrite H0 in Hgt. change (2 ^ 0) with 1 in Hgt. lia.
      - apply Zdigits2_le; lia. }
    cbn [Fraction_of_float].
    destruct (Z.leb_spec 0 (d - L - 53)); [lia|].
    rewrite Hm.
    replace (- (d - L - 53)) with (L + (53 - d)) by lia.
    rewrite Z.pow_add_r by lia.
    pose proof (Z.pow_pos_nonneg 2 (53 - d) ltac:(lia) ltac:(lia)) as Hpk.
    rewrite Z.gcd_mul_mono_r_nonneg by lia.
    assert (Hg : 0 < Z.gcd v (2 ^ L)).
    { pose proof (Z.gcd_nonneg v (2 ^ L)).
      destruct (Z.eq_dec (Z.gcd v (2 ^ L)) 0) as [Hz|]; [| lia].
      apply Z.gcd_eq_0_l in Hz. lia. }
    rewrite !Z.div_mul_cancel_r by lia. reflexivity.
Qed.

Lemma phase_exact_up_to_53_bits_witness :
  0 <= 171 < 2 ^ Z.of_nat (length sixth_bits) /\
  exists x,
    phase_of sixth_bits = Ok x /\
    Fraction_of_float x
    = Ok (171 / Z.gcd 171 (2 ^ Z.of_nat (length sixth_bits)),
          2 ^ Z.of_nat (length sixth_bits) / Z.gcd 171 (2 ^ Z.of_nat (length sixth_bits))).
Proof.
  apply (phase_exact_up_to_53_bits sixth_bits 171).
  - cbn. lia.
  - reflexivity.
Defined.
